(** * A shallow embedding of the inotify watcher (package [inotify])

    The development follows [inotify_linux.go]; [inotify.go] is the lazy
    variant of the same package and shares [GetEventName], [forwardBuffer],
    [Close] and the critical section of [epollWait] verbatim.  Where the two
    variants differ ([AddWatch]) both are embedded.

    Conventions.
    - [uint32] values are [Z] with the wrap-around written out ([u32]).
    - The event buffer [[SizeofInotifyEvent*25]byte] is a [list byte]; its
      fixed length is a hypothesis ([buffer_ok]) of the theorems.
    - Go strings are byte sequences, so they are [string] (a list of 8-bit
      characters); [string(bytes)] is [string_of_list_byte].
    - [map[uint32]*WatchSingle] is a [gmap Z WatchSingle].  Every
      [*WatchSingle] that the package hands around is the pointer stored in
      the map under the entry's key, so a pointer is represented by that key
      ([ptr]) and a write through the pointer is an update of the map entry.
    - A run-time panic (slice bounds, nil dereference) is the outcome
      [Panic]; system calls take their results as arguments and the calls a
      function issues are returned as a list. *)

From Stdlib Require Import ZArith Lia List.
From Stdlib.Strings Require Import Byte Ascii String.
From stdpp Require Import base option list gmap strings.

Local Open Scope Z_scope.

(** ** Outcomes *)

Inductive Outcome (A : Type) : Type :=
| Ok (a : A)
| Panic.
Arguments Ok {A} a.
Arguments Panic {A}.

(** ** Constants of package [syscall] (linux) *)

Module syscall.
Definition IN_MODIFY        : Z := 0x2.
Definition IN_ATTRIB        : Z := 0x4.
Definition IN_CLOSE_WRITE   : Z := 0x8.
Definition IN_CLOSE_NOWRITE : Z := 0x10.
Definition IN_CLOSE         : Z := 0x18.
Definition IN_OPEN          : Z := 0x20.
Definition IN_MOVED_FROM    : Z := 0x40.
Definition IN_MOVED_TO      : Z := 0x80.
Definition IN_MOVE          : Z := 0xc0.
Definition IN_CREATE        : Z := 0x100.
Definition IN_DELETE        : Z := 0x200.
Definition IN_DELETE_SELF   : Z := 0x400.
Definition IN_MOVE_SELF     : Z := 0x800.
Definition IN_IGNORED       : Z := 0x8000.
Definition IN_DONT_FOLLOW   : Z := 0x2000000.
Definition IN_MASK_ADD      : Z := 0x20000000.
Definition SizeofInotifyEvent : Z := 0x10.
End syscall.

(** Modelled from the spec: the exported constants [IN_OPEN] ...
    [IN_MOVE_SELF] that [GetEventName] of [inotify_linux.go] tests are
    declared in a file that is not among the sources.  The specification
    lists them as the recognised interest kinds, with CLOSE = CLOSE_WRITE
    | CLOSE_NOWRITE and MOVE = MOVED_FROM | MOVED_TO; they are the
    [syscall] constants, which the private [in_*] block of that file
    names and which [GetEventName] of [inotify.go] tests directly. *)
Definition IN_OPEN          := syscall.IN_OPEN.
Definition IN_ATTRIB        := syscall.IN_ATTRIB.
Definition IN_CLOSE         := syscall.IN_CLOSE.
Definition IN_CLOSE_NOWRITE := syscall.IN_CLOSE_NOWRITE.
Definition IN_CLOSE_WRITE   := syscall.IN_CLOSE_WRITE.
Definition IN_CREATE        := syscall.IN_CREATE.
Definition IN_DELETE        := syscall.IN_DELETE.
Definition IN_DELETE_SELF   := syscall.IN_DELETE_SELF.
Definition IN_MODIFY        := syscall.IN_MODIFY.
Definition IN_MOVE          := syscall.IN_MOVE.
Definition IN_MOVED_FROM    := syscall.IN_MOVED_FROM.
Definition IN_MOVED_TO      := syscall.IN_MOVED_TO.
Definition IN_MOVE_SELF     := syscall.IN_MOVE_SELF.

(** [const MAX_ITEM = syscall.SizeofInotifyEvent*20] *)
Definition MAX_ITEM : Z := syscall.SizeofInotifyEvent * 20.

(** Length of [eventBuffer [syscall.SizeofInotifyEvent*25]byte]. *)
Definition BUFFER_CAP : Z := syscall.SizeofInotifyEvent * 25.

(** ** Machine integers *)

Definition u32 (z : Z) : Z := z mod 2 ^ 32.

(** [int32] read of a 32-bit pattern, and the conversion [uint32(x)]. *)
Definition int32_of_bits (z : Z) : Z := if z <? 2 ^ 31 then z else z - 2 ^ 32.

Definition byteZ (b : byte) : Z := Z.of_N (Byte.to_N b).

Definition byte_of_Z (z : Z) : byte :=
  match Byte.of_N (Z.to_N (z mod 256)) with
  | Some b => b
  | None => x00
  end.

(** A little-endian 32-bit load at byte offset [off] (the hosts the package
    builds for are little-endian). *)
Definition load32 (buf : list byte) (off : nat) : Z :=
  byteZ (nth off buf x00)
  + byteZ (nth (off + 1) buf x00) * 2 ^ 8
  + byteZ (nth (off + 2) buf x00) * 2 ^ 16
  + byteZ (nth (off + 3) buf x00) * 2 ^ 24.

(** ** Data model *)

(** [type WatchSingle struct].  [watch] is [true] when the back-reference
    [*Watcher] is non-nil; it then points to the one watcher that owns the
    entry. *)
Record WatchSingle : Type := mkWatchSingle {
  path     : string;
  isDir    : bool;
  watchId  : Z;
  flags    : Z;
  watch    : bool;
  remove   : bool;
  FileName : string;
  Mask     : Z
}.

(** The zero value [WatchSingle{}]. *)
Definition WatchSingle_zero : WatchSingle :=
  mkWatchSingle "" false 0 0 false false "" 0.

Definition set_Mask (m : Z) (ws : WatchSingle) : WatchSingle :=
  mkWatchSingle (path ws) (isDir ws) (watchId ws) (flags ws) (watch ws)
                (remove ws) (FileName ws) m.
Definition set_FileName (s : string) (ws : WatchSingle) : WatchSingle :=
  mkWatchSingle (path ws) (isDir ws) (watchId ws) (flags ws) (watch ws)
                (remove ws) s (Mask ws).
Definition set_remove (b : bool) (ws : WatchSingle) : WatchSingle :=
  mkWatchSingle (path ws) (isDir ws) (watchId ws) (flags ws) (watch ws)
                b (FileName ws) (Mask ws).
Definition set_flags (f : Z) (ws : WatchSingle) : WatchSingle :=
  mkWatchSingle (path ws) (isDir ws) (watchId ws) f (watch ws)
                (remove ws) (FileName ws) (Mask ws).
Definition set_path (p : string) (ws : WatchSingle) : WatchSingle :=
  mkWatchSingle p (isDir ws) (watchId ws) (flags ws) (watch ws)
                (remove ws) (FileName ws) (Mask ws).

(** [type Watcher struct], without the mutex and the condition variable. *)
Record Watcher : Type := mkWatcher {
  inotifyFD   : Z;
  epollFD     : Z;
  watchMap    : gmap Z WatchSingle;
  eventBuffer : list byte;
  bufferItem  : Z;
  wait        : bool;
  closes      : bool
}.

Definition set_watchMap (m : gmap Z WatchSingle) (w : Watcher) : Watcher :=
  mkWatcher (inotifyFD w) (epollFD w) m (eventBuffer w) (bufferItem w)
            (wait w) (closes w).
Definition set_eventBuffer (b : list byte) (w : Watcher) : Watcher :=
  mkWatcher (inotifyFD w) (epollFD w) (watchMap w) b (bufferItem w)
            (wait w) (closes w).
Definition set_bufferItem (n : Z) (w : Watcher) : Watcher :=
  mkWatcher (inotifyFD w) (epollFD w) (watchMap w) (eventBuffer w) n
            (wait w) (closes w).
Definition set_wait (b : bool) (w : Watcher) : Watcher :=
  mkWatcher (inotifyFD w) (epollFD w) (watchMap w) (eventBuffer w)
            (bufferItem w) b (closes w).
Definition set_closes (b : bool) (w : Watcher) : Watcher :=
  mkWatcher (inotifyFD w) (epollFD w) (watchMap w) (eventBuffer w)
            (bufferItem w) (wait w) b.

(** A [*WatchSingle]: the key under which the pointer sits in [watchMap]. *)
Definition ptr : Type := Z.

Definition deref (w : Watcher) (p : ptr) : option WatchSingle := watchMap w !! p.

(** [syscall.InotifyEvent] as read through the pointer cast at
    [&w.eventBuffer[0]]: [Wd int32; Mask, Cookie, Len uint32]. *)
Record InotifyEvent : Type := mkInotifyEvent {
  Wd : Z; Mask_ : Z; Cookie : Z; Len : Z
}.

Definition event_at0 (buf : list byte) : InotifyEvent :=
  mkInotifyEvent (int32_of_bits (load32 buf 0)) (load32 buf 4)
                 (load32 buf 8) (load32 buf 12).

(** ** Slices and [copy] *)

(** [a[lo:hi]] on an array: panics ([None]) unless [lo <= hi <= len(a)]. *)
Definition slice (a : list byte) (lo hi : Z) : option (list byte) :=
  if (lo <=? hi) && (hi <=? Z.of_nat (length a))
  then Some (take (Z.to_nat (hi - lo)) (drop (Z.to_nat lo) a))
  else None.

(** [a[lo:]] *)
Definition slice_from (a : list byte) (lo : Z) : option (list byte) :=
  slice a lo (Z.of_nat (length a)).

(** [copy(dst, src)]: [min(len(dst), len(src))] elements are moved, with
    the semantics of an overlapping move; the result is the new [dst]. *)
Definition copy (dst src : list byte) : list byte :=
  take (length dst) src ++ drop (length src) dst.

(** ** [forwardBuffer] *)

Definition forwardBuffer (w : Watcher) : Outcome (option ptr * Watcher) :=
  let offset := u32 syscall.SizeofInotifyEvent in
  let event := event_at0 (eventBuffer w) in
  match watchMap w !! u32 (Wd event) with
  | Some ws =>
      let ws := set_Mask (Mask_ event) ws in
      let ws := set_FileName (path ws) ws in
      let named :=
        if 0 <? Len event then
          match slice (eventBuffer w) offset (u32 (offset + Len event)) with
          | Some name =>
              Some (set_FileName (FileName ws ++ string_of_list_byte name) ws,
                    u32 (offset + Len event))
          | None => None
          end
        else Some (ws, offset) in
      match named with
      | None => Panic
      | Some (ws, offset) =>
          match slice_from (eventBuffer w) offset with
          | None => Panic
          | Some src =>
              let w := set_watchMap (<[u32 (Wd event) := ws]> (watchMap w)) w in
              let w := set_eventBuffer (copy (eventBuffer w) src) w in
              let w := set_bufferItem (u32 (bufferItem w - offset)) w in
              Ok (Some (u32 (Wd event)), w)
          end
      end
  | None =>
      match slice_from (eventBuffer w) (bufferItem w) with
      | None => Panic
      | Some src =>
          let w := set_eventBuffer (copy (eventBuffer w) src) w in
          let w := set_bufferItem 0 w in
          Ok (None, w)
      end
  end.

(** ** System calls and errors *)

Inductive error : Type :=
| errors_New (msg : string)
| Errno (n : Z).

#[global] Instance error_eq_dec : EqDecision error.
Proof. solve_decision. Defined.

Module Errno_.
Definition EINTR : error := Errno 4.
End Errno_.

Inductive Syscall : Type :=
| SysClose (fd : Z)
| SysInotifyRmWatch (fd : Z) (wd : Z)
| SysInotifyAddWatch (fd : Z) (pathname : string) (mask : Z)
| SysRead (fd : Z) (count : Z).

(** ** [GetEventName] *)

Definition has_bits (mask bits : Z) : bool := Z.land mask bits =? bits.

(** [ws.watch.watchMap[ws.watchId].remove = true]: the map index yields the
    nil pointer for a missing key and the field store then panics. *)
Definition store_remove (id : Z) (w : Watcher) : Outcome Watcher :=
  match watchMap w !! id with
  | Some e => Ok (set_watchMap (<[id := set_remove true e]> (watchMap w)) w)
  | None => Panic
  end.

(** The receiver [ws] is a copy; [w] is the watcher behind [ws.watch] and is
    read or written only when [watch ws] holds. *)
Definition GetEventName (ws : WatchSingle) (w : Watcher)
  : Outcome (string * Watcher * list Syscall) :=
  if has_bits (Mask ws) IN_DELETE_SELF then
    if watch ws then
      match store_remove (watchId ws) w with
      | Ok w => Ok ("DELETE_SELF"%string, w, [])
      | Panic => Panic
      end
    else Ok ("DELETE_SELF"%string, w, [])
  else if has_bits (Mask ws) IN_MOVE_SELF then
    if watch ws then
      match store_remove (watchId ws) w with
      | Ok w =>
          Ok ("MOVE_SELF"%string, w,
              [SysInotifyRmWatch (inotifyFD w) (watchId ws)])
      | Panic => Panic
      end
    else Ok ("MOVE_SELF"%string, w, [])
  else if has_bits (Mask ws) IN_CREATE then Ok ("CREATE"%string, w, [])
  else if has_bits (Mask ws) IN_DELETE then Ok ("DELETE"%string, w, [])
  else if has_bits (Mask ws) IN_OPEN then Ok ("OPEN"%string, w, [])
  else if has_bits (Mask ws) IN_CLOSE then Ok ("CLOSE"%string, w, [])
  else if has_bits (Mask ws) IN_CLOSE_WRITE then Ok ("CLOSE_WRITE"%string, w, [])
  else if has_bits (Mask ws) IN_CLOSE_NOWRITE then Ok ("CLOSE_NOWRITE"%string, w, [])
  else if has_bits (Mask ws) IN_MOVE then Ok ("MOVE"%string, w, [])
  else if has_bits (Mask ws) IN_MOVED_FROM then Ok ("MOVED_FROM"%string, w, [])
  else if has_bits (Mask ws) IN_MOVED_TO then Ok ("MOVED_TO"%string, w, [])
  else if has_bits (Mask ws) IN_MODIFY then Ok ("MODIFY"%string, w, [])
  else if has_bits (Mask ws) IN_ATTRIB then Ok ("ATTRIB"%string, w, [])
  else if has_bits (Mask ws) syscall.IN_IGNORED then
    if watch ws then
      match watchMap w !! watchId ws with
      | None => Panic
      | Some e =>
          if remove e
          then Ok ("REMOVE"%string,
                   set_watchMap (delete (watchId ws) (watchMap w)) w, [])
          else Ok ("REMOVE"%string, w, [])
      end
    else Ok ("REMOVE"%string, w, [])
  else Ok ("ERROR"%string, w, []).

(** ** [AddWatch] *)

(** What the environment answers during one call: [filepath.Abs],
    [os.Stat] ([None] for a nil [info], else [info.IsDir()]) and
    [syscall.InotifyAddWatch]. *)
Record AddWatchEnv : Type := mkAddWatchEnv {
  abs_result  : string * option error;
  stat_result : option bool;
  add_result  : Z * option error
}.

(** The tail shared by both variants: the body of [if err == nil]. *)
Definition register (wd : Z) (p : string) (info : option bool) (fl : Z)
    (w : Watcher) : Outcome Watcher :=
  let found :=
    match watchMap w !! u32 wd with
    | Some ws => Ok (ws, w)
    | None =>
        match info with
        | None => Panic
        | Some dir =>
            let ws := mkWatchSingle p dir (u32 wd) fl true false "" 0 in
            let ws := if isDir ws then set_path (path ws ++ "/") ws else ws in
            Ok (ws, set_watchMap (<[u32 wd := ws]> (watchMap w)) w)
        end
    end in
  match found with
  | Panic => Panic
  | Ok (ws, w) =>
      Ok (set_watchMap
            (<[u32 wd := set_flags (Z.lor (flags ws) fl) ws]> (watchMap w)) w)
  end.

Definition kernel_mask (fl : Z) : Z :=
  Z.lor (Z.lor fl syscall.IN_DONT_FOLLOW) syscall.IN_MASK_ADD.

(** [inotify_linux.go] *)
Definition AddWatch (env : AddWatchEnv) (p : string) (fl : Z) (w : Watcher)
  : Outcome (option error * Watcher * list Syscall) :=
  match abs_result env with
  | (_, Some err) => Ok (Some err, w, [])
  | (p, None) =>
      match stat_result env with
      | None => Ok (Some (errors_New "File or Dir not"), w, [])
      | Some dir =>
          let call := SysInotifyAddWatch (inotifyFD w) p (kernel_mask fl) in
          match add_result env with
          | (wd, None) =>
              match register wd p (Some dir) fl w with
              | Ok w => Ok (None, w, [call])
              | Panic => Panic
              end
          | (_, Some err) => Ok (Some err, w, [call])
          end
      end
  end.

(** [inotify.go]: no [filepath.Abs], and [os.Stat] is consulted only when
    the entry is new, where a nil [info] makes [info.IsDir()] panic. *)
Definition AddWatch_lazy (env : AddWatchEnv) (p : string) (fl : Z) (w : Watcher)
  : Outcome (option error * Watcher * list Syscall) :=
  let call := SysInotifyAddWatch (inotifyFD w) p (kernel_mask fl) in
  match add_result env with
  | (wd, None) =>
      match register wd p (stat_result env) fl w with
      | Ok w => Ok (None, w, [call])
      | Panic => Panic
      end
  | (_, Some err) => Ok (Some err, w, [call])
  end.

(** ** [WaitEvent] *)

Definition ErrClosed : error := errors_New "The Watcher is closes".
Definition ErrCrossLines : error := errors_New "The event bufferItem Cross Lines".
Definition ErrDeletedOrRenamed : error :=
  errors_New "The monitored directory or file has been deleted or renamed".

(** [wake] is what the other goroutines do to the watcher while the caller
    sleeps in [w.cond.Wait()] with the mutex released.  [wait_phase] is the
    first [if] of the function: [None] stands for the early return of the
    closed watcher, [Some w] for the watcher with which the caller goes on. *)
Definition wait_phase (wake : Watcher -> Watcher) (w : Watcher)
  : option Watcher :=
  if bufferItem w =? 0 then
    if closes w then None
    else Some (set_wait false (wake (set_wait true w)))
  else Some w.

Definition WaitEvent (wake : Watcher -> Watcher) (w : Watcher)
  : Outcome (WatchSingle * option error * Watcher) :=
  match wait_phase wake w with
  | None => Ok (WatchSingle_zero, Some ErrClosed, w)
  | Some w =>
      if bufferItem w <? u32 syscall.SizeofInotifyEvent
      then Ok (WatchSingle_zero, Some ErrCrossLines, w)
      else
        match forwardBuffer w with
        | Panic => Panic
        | Ok (Some p, w) =>
            match deref w p with
            | Some ws => Ok (ws, None, w)
            | None => Panic
            end
        | Ok (None, w) => Ok (WatchSingle_zero, Some ErrDeletedOrRenamed, w)
        end
  end.

(** ** [epollWait] *)

(** [syscall.Read(fd, p)]: [ReadData data] when the kernel holds [data] for
    the reader, of which at most [len(p)] bytes are delivered.  This is the
    contract of a read in general; the answers of an inotify descriptor
    are the narrower [inotify_read]. *)
Inductive ReadResult : Type :=
| ReadData (data : list byte)
| ReadErr (err : error).

(** Lines 201-203: the read into [w.eventBuffer[w.bufferItem:]]. *)
Definition read_tail (r : ReadResult) (w : Watcher)
  : Outcome (Watcher * list Syscall) :=
  match slice_from (eventBuffer w) (bufferItem w) with
  | None => Panic
  | Some p =>
      let call := SysRead (inotifyFD w) (Z.of_nat (length p)) in
      match r with
      | ReadData data =>
          let got := take (length p) data in
          let buf := take (Z.to_nat (bufferItem w)) (eventBuffer w)
                       ++ copy p got in
          let w := set_eventBuffer buf w in
          Ok (set_bufferItem (u32 (bufferItem w + Z.of_nat (length got))) w,
              [call])
      | ReadErr _ => Ok (w, [call])
      end
  end.

(** Lines 194-204: the critical section run for a ready event on the
    inotify descriptor.  The result of the forced [forwardBuffer] is
    dropped, as in the source. *)
Definition epollWait_ready (r : ReadResult) (w : Watcher)
  : Outcome (Watcher * list Syscall) :=
  let forced :=
    if u32 MAX_ITEM <? bufferItem w then
      match forwardBuffer w with
      | Ok (_, w) => Ok w
      | Panic => Panic
      end
    else Ok w in
  match forced with
  | Ok w => read_tail r w
  | Panic => Panic
  end.

Record EpollEvent : Type := mkEpollEvent { Events : Z; Fd : Z }.

Definition EPOLLIN  : Z := 0x1.
Definition EPOLLERR : Z := 0x8.
Definition EPOLLHUP : Z := 0x10.

(** The answer of [syscall.EpollWait]: the failure branch
    ([n == -1 || n > 5]) with its [err], or the ready events
    [eventSlice[:n]], each with what a read of the inotify descriptor
    would return at that moment. *)
Inductive EpollWaitResult : Type :=
| EpollFailed (err : option error)
| EpollReady (evs : list (EpollEvent * ReadResult)).

Fixpoint epollWait_loop (evs : list (EpollEvent * ReadResult)) (w : Watcher)
  : Outcome (Watcher * list Syscall) :=
  match evs with
  | [] => Ok (w, [])
  | (e, r) :: evs =>
      let step :=
        if negb (Z.land (Events e) EPOLLHUP =? 0)
           || negb (Z.land (Events e) EPOLLERR =? 0)
           || negb (Z.land (Events e) EPOLLIN =? 0)
        then
          if negb (Fd e =? int32_of_bits (u32 (inotifyFD w)))
          then Ok (w, [])
          else epollWait_ready r w
        else Ok (w, []) in
      match step with
      | Panic => Panic
      | Ok (w, t1) =>
          match epollWait_loop evs w with
          | Panic => Panic
          | Ok (w, t2) => Ok (w, t1 ++ t2)
          end
      end
  end.

(** One run of [epollWait]; the boolean tells whether the function
    schedules itself again ([go w.epollWait()]). *)
Definition epollWait (res : EpollWaitResult) (w : Watcher)
  : Outcome (Watcher * list Syscall * bool) :=
  match res with
  | EpollFailed err =>
      if decide (err = Some Errno_.EINTR) then Ok (w, [], negb (closes w))
      else Ok (set_closes true w, [SysClose (inotifyFD w)], false)
  | EpollReady evs =>
      match epollWait_loop evs w with
      | Panic => Panic
      | Ok (w, t) => Ok (w, t, true)
      end
  end.

(** ** [Close] and [NewWatcher] *)

Definition Close (w : Watcher) : Watcher * list Syscall :=
  (w,
   (if negb (inotifyFD w =? -1) then [SysClose (inotifyFD w)] else [])
   ++ (if negb (epollFD w =? -1) then [SysClose (epollFD w)] else [])).

(** Answers of [InotifyInit1], [EpollCreate1] and [EpollCtl]. *)
Record NewWatcherEnv : Type := mkNewWatcherEnv {
  inotify_init1 : Z;
  epoll_create1 : Z;
  epoll_ctl     : option error
}.

Definition NewWatcher (env : NewWatcherEnv)
  : option Watcher * option error * list Syscall :=
  if inotify_init1 env =? -1
  then (None, Some (errors_New "The inotify cannot create"), [])
  else if epoll_create1 env =? -1
  then (None, Some (errors_New "The epoll cannot create"),
        [SysClose (inotify_init1 env)])
  else
    match epoll_ctl env with
    | Some err =>
        (None, Some err,
         [SysClose (inotify_init1 env); SysClose (epoll_create1 env)])
    | None =>
        (Some (mkWatcher (inotify_init1 env) (epoll_create1 env) ∅
                 (repeat x00 (Z.to_nat BUFFER_CAP)) 0 false false),
         None, [])
    end.

(** ** Invariants of the buffer *)

(** The array has its declared length. *)
Definition buffer_ok (w : Watcher) : Prop :=
  Z.of_nat (length (eventBuffer w)) = BUFFER_CAP.

(** The counter of valid bytes stays within the array. *)
Definition counter_ok (w : Watcher) : Prop :=
  0 <= bufferItem w <= BUFFER_CAP.

(** The registry key that the record at the front of the buffer names. *)
Definition front_key (w : Watcher) : Z := u32 (Wd (event_at0 (eventBuffer w))).

Definition front_Len (w : Watcher) : Z := Len (event_at0 (eventBuffer w)).

(** The first record is completely buffered. *)
Definition front_complete (w : Watcher) : Prop :=
  syscall.SizeofInotifyEvent + front_Len w <= bufferItem w.

(** ** The kernel's record format *)

(** One notification record, laid out as [syscall.InotifyEvent], the
    struct [forwardBuffer] reads through its pointer cast: four 32-bit
    header fields, then the [Len] bytes of the name field (the child name
    and its NUL padding).  [encode] writes what [event_at0] reads. *)
Record KRecord : Type := mkKRecord {
  k_wd : Z; k_mask : Z; k_cookie : Z; k_name : list byte
}.

Definition store32 (z : Z) : list byte :=
  [byte_of_Z z; byte_of_Z (z / 2 ^ 8); byte_of_Z (z / 2 ^ 16);
   byte_of_Z (z / 2 ^ 24)].

Definition encode (r : KRecord) : list byte :=
  store32 (k_wd r) ++ store32 (k_mask r) ++ store32 (k_cookie r)
  ++ store32 (Z.of_nat (length (k_name r))) ++ k_name r.

Definition is_u32 (z : Z) : Prop := 0 <= z < 2 ^ 32.

Definition wf_record (r : KRecord) : Prop :=
  is_u32 (k_wd r) /\ is_u32 (k_mask r) /\ is_u32 (k_cookie r)
  /\ is_u32 (Z.of_nat (length (k_name r))).

(** The name the kernel pads: everything before the first NUL. *)
Fixpoint strip_pad (l : list byte) : list byte :=
  match l with
  | [] => []
  | b :: l => if Byte.eqb b x00 then [] else b :: strip_pad l
  end.

(** The kernel's name field for a child called [name]: NUL-terminated
    and padded to a multiple of the header size. *)
Definition padded_name (name : string) : list byte :=
  let raw := list_byte_of_string name in
  let n := ((length raw + 1 + 15) / 16 * 16)%nat in
  raw ++ repeat x00 (n - length raw).

(** The event a record stands for, given the registry: the entry under
    the record's watch identifier with [Mask] and [FileName] as
    [forwardBuffer] writes them. *)
Definition event_of (m : gmap Z WatchSingle) (r : KRecord) : option WatchSingle :=
  match m !! k_wd r with
  | Some e =>
      Some (set_FileName (path e ++ string_of_list_byte (k_name r))
              (set_Mask (k_mask r) e))
  | None => None
  end.

(** [n] successive calls of [forwardBuffer], each result read through the
    returned pointer at once (as [WaitEvent] does); [None] stands for a
    nil result. *)
Fixpoint forward_n (n : nat) (w : Watcher)
  : Outcome (list (option WatchSingle) * Watcher) :=
  match n with
  | O => Ok ([], w)
  | S n =>
      match forwardBuffer w with
      | Panic => Panic
      | Ok (r, w) =>
          match forward_n n w with
          | Panic => Panic
          | Ok (evs, w') => Ok ((r ≫= deref w) :: evs, w')
          end
      end
  end.

(** ** The classification the specification describes *)

(** The priority order of the labels, highest first. *)
Definition priority : list (Z * string) :=
  [ (IN_DELETE_SELF, "DELETE_SELF"); (IN_MOVE_SELF, "MOVE_SELF");
    (IN_CREATE, "CREATE"); (IN_DELETE, "DELETE"); (IN_OPEN, "OPEN");
    (IN_CLOSE, "CLOSE"); (IN_CLOSE_WRITE, "CLOSE_WRITE");
    (IN_CLOSE_NOWRITE, "CLOSE_NOWRITE"); (IN_MOVE, "MOVE");
    (IN_MOVED_FROM, "MOVED_FROM"); (IN_MOVED_TO, "MOVED_TO");
    (IN_MODIFY, "MODIFY"); (IN_ATTRIB, "ATTRIB");
    (syscall.IN_IGNORED, "REMOVE") ]%string.

(** The label of the first entry of [tbl] all of whose bits are set in
    [mask], and the unknown label when there is none. *)
Fixpoint first_match (mask : Z) (tbl : list (Z * string)) : string :=
  match tbl with
  | [] => "ERROR"
  | (bits, label) :: tbl =>
      if has_bits mask bits then label else first_match mask tbl
  end.

Definition spec_label (mask : Z) : string := first_match mask priority.

(** The calls on which [GetEventName] touches the registry. *)
Definition uses_registry (ws : WatchSingle) : bool :=
  watch ws
  && bool_decide (spec_label (Mask ws)
                    ∈ ["DELETE_SELF"; "MOVE_SELF"; "REMOVE"]%string).

(** ** Sequences of [AddWatch] calls *)

(** The two variants of the function. *)
Inductive variant : Type := Eager | Lazy.

Definition AddWatch_of (v : variant) :=
  match v with Eager => AddWatch | Lazy => AddWatch_lazy end.

Fixpoint AddWatch_all (v : variant) (calls : list (AddWatchEnv * Z))
    (p : string) (w : Watcher) : Outcome (list (option error) * Watcher) :=
  match calls with
  | [] => Ok ([], w)
  | (env, fl) :: calls =>
      match AddWatch_of v env p fl w with
      | Panic => Panic
      | Ok (err, w, _) =>
          match AddWatch_all v calls p w with
          | Panic => Panic
          | Ok (errs, w) => Ok (err :: errs, w)
          end
      end
  end.

Definition flags_union (fls : list Z) : Z := foldr Z.lor 0 fls.

(** A call on [p] that succeeds: the path is of kind [dir], the kernel
    answers the watch descriptor [wd], and [absP] is the path handed to the
    kernel ([filepath.Abs(p)] in the eager variant, [p] itself in the lazy
    one). *)
Definition succeeds (v : variant) (p absP : string) (dir : bool) (wd : Z)
    (c : AddWatchEnv * Z) : Prop :=
  match v with
  | Eager => abs_result c.1 = (absP, None)
  | Lazy => absP = p
  end
  /\ stat_result c.1 = Some dir
  /\ add_result c.1 = (wd, None).

(** The path [AddWatch] stores for a new entry. *)
Definition stored_path (absP : string) (dir : bool) : string :=
  if dir then (absP ++ "/")%string else absP.

(** ** The state after a parse *)

(** The [Len] bytes of the name field of the record at the front. *)
Definition front_name (w : Watcher) : list byte :=
  take (Z.to_nat (front_Len w))
       (drop (Z.to_nat syscall.SizeofInotifyEvent) (eventBuffer w)).

(** The event written into the entry [e] for the record at the front. *)
Definition front_event (w : Watcher) (e : WatchSingle) : WatchSingle :=
  set_FileName (path e ++ string_of_list_byte (front_name w))
    (set_Mask (Mask_ (event_at0 (eventBuffer w))) e).

(** A buffer whose bytes from [n] on were moved to the front; the last
    [n] bytes keep their old contents. *)
Definition shift_left (n : nat) (buf : list byte) : list byte :=
  drop n buf ++ drop (length buf - n) buf.

(** The watcher after the record at the front was consumed for entry [e]. *)
Definition consumed (w : Watcher) (e : WatchSingle) : Watcher :=
  mkWatcher (inotifyFD w) (epollFD w)
    (<[front_key w := front_event w e]> (watchMap w))
    (shift_left (Z.to_nat (syscall.SizeofInotifyEvent + front_Len w))
       (eventBuffer w))
    (u32 (bufferItem w - (syscall.SizeofInotifyEvent + front_Len w)))
    (wait w) (closes w).

(** The watcher after the whole buffer was discarded. *)
Definition cleared (w : Watcher) : Watcher :=
  set_bufferItem 0
    (set_eventBuffer (shift_left (Z.to_nat (bufferItem w)) (eventBuffer w)) w).

(** The byte stream of a sequence of records, front first. *)
Fixpoint stream (recs : list KRecord) : list byte :=
  match recs with
  | [] => []
  | r :: recs => encode r ++ stream recs
  end.

(** What a read leaves behind in [w'] when it started from [w]: with data
    available, as many of its leading bytes as the free tail of the array
    takes, stored right behind the bytes already buffered; on an error,
    nothing. *)
Definition appended (r : ReadResult) (w w' : Watcher) : Prop :=
  match r with
  | ReadData data =>
      let n := Z.min (Z.of_nat (length data)) (BUFFER_CAP - bufferItem w) in
      bufferItem w' = bufferItem w + n
      /\ take (Z.to_nat n) (drop (Z.to_nat (bufferItem w)) (eventBuffer w'))
         = take (Z.to_nat n) data
  | ReadErr _ => w' = w
  end.

(** ** A concrete run: one watched directory *)

Module Run.
Definition env0 : NewWatcherEnv := mkNewWatcherEnv 3 4 None.

(** The watcher [NewWatcher] builds on descriptors 3 and 4. *)
Definition fresh : Watcher :=
  mkWatcher 3 4 ∅ (repeat x00 (Z.to_nat BUFFER_CAP)) 0 false false.

(** [AddWatch("/tmp/d", IN_CREATE|IN_DELETE)] on a directory, answered
    with watch descriptor 1. *)
Definition add_env : AddWatchEnv :=
  mkAddWatchEnv ("/tmp/d"%string, None) (Some true) (1, None).
Definition add_flags : Z := Z.lor IN_CREATE IN_DELETE.

Definition dir_entry : WatchSingle :=
  mkWatchSingle "/tmp/d/" true 1 add_flags true false "" 0.

Definition watching : Watcher := set_watchMap {[ 1 := dir_entry ]} fresh.

(** The records the kernel queues when [a.txt] is created in the
    directory and deleted again. *)
Definition rec_create : KRecord := mkKRecord 1 IN_CREATE 0 (padded_name "a.txt").
Definition rec_delete : KRecord := mkKRecord 1 IN_DELETE 0 (padded_name "a.txt").

(** The buffer of [watching] once the reactor has read [bytes]. *)
Definition filled (bytes : list byte) : Watcher :=
  set_bufferItem (Z.of_nat (length bytes))
    (set_eventBuffer
       (bytes ++ repeat x00 (Z.to_nat BUFFER_CAP - length bytes)) watching).

Definition created : Watcher := filled (encode rec_create).

(** Both records buffered, in the order the kernel produced them. *)
Definition created_deleted : Watcher := filled (stream [rec_create; rec_delete]).

(** A record for an identifier the registry does not hold, followed by
    one it holds. *)
Definition rec_stray : KRecord := mkKRecord 2 IN_MODIFY 0 [].
Definition stray : Watcher := filled (stream [rec_stray; rec_create]).

(** Eleven records buffered: 352 bytes, above [MAX_ITEM]. *)
Definition burst : Watcher := filled (stream (repeat rec_create 11)).

(** What the kernel holds when thirteen files are created at once:
    416 bytes, sixteen more than the array. *)
Definition thirteen : list byte := stream (repeat rec_create 13).
End Run.

(** The file name the specification announces for a record: the stored
    path followed by the child name without its padding. *)
Definition unpadded_FileName (e : WatchSingle) (name : list byte) : string :=
  path e ++ string_of_list_byte (strip_pad name).

(** ** What the operations keep *)

(** The fields of an entry that [forwardBuffer] never writes. *)
Definition static (e : WatchSingle) : string * bool * Z * Z * bool * bool :=
  (path e, isDir e, watchId e, flags e, watch e, remove e).

(** Every entry sits under its own identifier and points back to the
    watcher, as [AddWatch] builds it. *)
Definition registry_ok (w : Watcher) : Prop :=
  forall k e, watchMap w !! k = Some e -> watchId e = k /\ watch e = true.

(** [n] successive calls of [WaitEvent]; each call's event and error. *)
Fixpoint WaitEvent_n (wake : Watcher -> Watcher) (n : nat) (w : Watcher)
  : Outcome (list (WatchSingle * option error) * Watcher) :=
  match n with
  | O => Ok ([], w)
  | S n =>
      match WaitEvent wake w with
      | Panic => Panic
      | Ok (ev, err, w) =>
          match WaitEvent_n wake n w with
          | Panic => Panic
          | Ok (res, w') => Ok ((ev, err) :: res, w')
          end
      end
  end.

(** ** The watcher as a state machine *)

(** One atomic change of the watcher: a call of an exported function, a
    run of the reactor, or one of the pieces [WaitEvent] is made of (the
    writes of [wait] around [cond.Wait] and the call of [forwardBuffer]). *)
Inductive step : Watcher -> Watcher -> Prop :=
| step_AddWatch v env p fl w err w' t :
    AddWatch_of v env p fl w = Ok (err, w', t) -> step w w'
| step_forwardBuffer w r w' :
    forwardBuffer w = Ok (r, w') -> step w w'
| step_wait b w :
    step w (set_wait b w)
| step_epollWait res w w' t b :
    epollWait res w = Ok (w', t, b) -> step w w'
| step_GetEventName ev w l w' t :
    GetEventName ev w = Ok (l, w', t) -> step w w'
| step_Close w :
    step w (Close w).1.

(** The watchers that can arise from the one [NewWatcher] returns. *)
Inductive reachable (env : NewWatcherEnv) : Watcher -> Prop :=
| reach_new w t :
    NewWatcher env = (Some w, None, t) -> reachable env w
| reach_step w w' :
    reachable env w -> step w w' -> reachable env w'.

(** What holds of every reachable watcher. *)
Definition invariant (env : NewWatcherEnv) (w : Watcher) : Prop :=
  buffer_ok w /\ is_u32 (bufferItem w) /\ registry_ok w
  /\ inotifyFD w = inotify_init1 env /\ inotifyFD w <> -1
  /\ epollFD w = epoll_create1 env /\ epollFD w <> -1.

(** Two watchers that differ at most in the buffer, its counter and the
    [Mask] and [FileName] of registry entries. *)
Definition same_frame (w w' : Watcher) : Prop :=
  inotifyFD w' = inotifyFD w /\ epollFD w' = epollFD w
  /\ wait w' = wait w /\ closes w' = closes w
  /\ (forall k, static <$> (watchMap w' !! k) = static <$> (watchMap w !! k)).

(** Two watchers that differ at most in the registry. *)
Definition only_registry (w w' : Watcher) : Prop :=
  inotifyFD w' = inotifyFD w /\ epollFD w' = epollFD w
  /\ eventBuffer w' = eventBuffer w /\ bufferItem w' = bufferItem w
  /\ wait w' = wait w /\ closes w' = closes w.

(** A ready event the loop of [epollWait] passes over: none of the three
    condition bits, or a descriptor other than the inotify one. *)
Definition passed_over (w : Watcher) (e : EpollEvent) : Prop :=
  (Z.land (Events e) EPOLLHUP = 0 /\ Z.land (Events e) EPOLLERR = 0
   /\ Z.land (Events e) EPOLLIN = 0)
  \/ Fd e <> int32_of_bits (u32 (inotifyFD w)).

(** The descriptors [NewWatcher] has opened when it returns. *)
Definition opened (env : NewWatcherEnv) : list Z :=
  if inotify_init1 env =? -1 then []
  else inotify_init1 env
       :: (if epoll_create1 env =? -1 then [] else [epoll_create1 env]).

(** ** Reads of an inotify descriptor *)

(** The records at the head of the kernel's queue that fit, whole, into
    [room] bytes. *)
Fixpoint whole_prefix (queue : list KRecord) (room : nat) : list KRecord :=
  match queue with
  | [] => []
  | r :: queue =>
      if Nat.leb (length (encode r)) room
      then r :: whole_prefix queue (room - length (encode r))
      else []
  end.

Definition EINVAL : error := Errno 22.

(** What [read] answers on an inotify descriptor with [queue] pending and
    a buffer of [room] bytes (inotify(7)): the records at the head of the
    queue that fit, whole, and [EINVAL] when not even the first one fits.
    A record is never cut. *)
Definition inotify_read (queue : list KRecord) (room : nat) : ReadResult :=
  match whole_prefix queue room with
  | [] => ReadErr EINVAL
  | recs => ReadData (stream recs)
  end.

(** The length of [w.eventBuffer[w.bufferItem:]], the slice handed to
    [syscall.Read]. *)
Definition room (w : Watcher) : nat := Z.to_nat (BUFFER_CAP - bufferItem w).

(** The buffered bytes are those of whole, well-formed records. *)
Definition whole (w : Watcher) : Prop :=
  exists recs rest,
    Forall wf_record recs
    /\ eventBuffer w = stream recs ++ rest
    /\ bufferItem w = Z.of_nat (length (stream recs)).

(** The watcher at the moment [epollWait] calls [syscall.Read]: after the
    forced [forwardBuffer] when the byte count is above [MAX_ITEM]. *)
Definition before_read (w : Watcher) : Watcher :=
  if u32 MAX_ITEM <? bufferItem w then
    match forwardBuffer w with
    | Ok (_, w1) => w1
    | Panic => w
    end
  else w.

(** * Basic facts *)

Section Bytes.

Lemma byteZ_range b : 0 <= byteZ b < 256.
Proof.
  unfold byteZ. pose proof (Byte.to_N_bounded b). lia.
Qed.

Lemma byteZ_byte_of_Z z : byteZ (byte_of_Z z) = z mod 256.
Proof.
  unfold byteZ, byte_of_Z.
  assert (Hr : 0 <= z mod 256 < 256) by (apply Z.mod_pos_bound; lia).
  destruct (Byte.of_N (Z.to_N (z mod 256))) as [b|] eqn:E.
  - apply Byte.to_of_N in E. rewrite E. lia.
  - apply Byte.of_N_None_iff in E. lia.
Qed.

Lemma load32_range buf off : is_u32 (load32 buf off).
Proof.
  unfold load32, is_u32.
  pose proof (byteZ_range (nth off buf x00)).
  pose proof (byteZ_range (nth (off + 1) buf x00)).
  pose proof (byteZ_range (nth (off + 2) buf x00)).
  pose proof (byteZ_range (nth (off + 3) buf x00)).
  lia.
Qed.

Lemma load32_store32 z rest : is_u32 z -> load32 (store32 z ++ rest) 0 = z.
Proof.
  unfold is_u32, load32, store32. intros Hz. cbn [nth app Nat.add].
  rewrite !byteZ_byte_of_Z.
  change (2 ^ 8) with 256. change (2 ^ 16) with 65536.
  change (2 ^ 24) with 16777216. change (2 ^ 32) with 4294967296 in Hz.
  Z.div_mod_to_equations. lia.
Qed.

Lemma load32_skip4 a b c d rest off :
  load32 (a :: b :: c :: d :: rest) (4 + off) = load32 rest off.
Proof. reflexivity. Qed.

Lemma u32_int32_of_bits z : is_u32 z -> u32 (int32_of_bits z) = z.
Proof.
  unfold is_u32, u32, int32_of_bits. intros Hz.
  destruct (z <? 2 ^ 31) eqn:E.
  - apply Z.mod_small. lia.
  - replace (z - 2 ^ 32) with (z + (-1) * 2 ^ 32) by lia.
    rewrite Z.mod_add by lia. apply Z.mod_small. lia.
Qed.

Lemma u32_small z : is_u32 z -> u32 z = z.
Proof. unfold is_u32, u32. intros. apply Z.mod_small. lia. Qed.

Lemma u32_range z : is_u32 (u32 z).
Proof. unfold is_u32, u32. apply Z.mod_pos_bound. lia. Qed.

End Bytes.

Lemma load32_store32_at z pre rest :
  is_u32 z -> load32 (pre ++ store32 z ++ rest) (length pre) = z.
Proof.
  intros Hz. transitivity (load32 (store32 z ++ rest) 0).
  - unfold load32.
    rewrite !(app_nth2_plus pre), (app_nth2 pre) by lia.
    by rewrite Nat.sub_diag.
  - by apply load32_store32.
Qed.

Lemma event_at0_encode r rest :
  wf_record r ->
  event_at0 (encode r ++ rest)
  = mkInotifyEvent (int32_of_bits (k_wd r)) (k_mask r) (k_cookie r)
      (Z.of_nat (length (k_name r))).
Proof.
  intros (Hw & Hm & Hc & Hl). unfold event_at0, encode.
  rewrite <- !app_assoc. f_equal.
  - by rewrite load32_store32.
  - by apply (load32_store32_at _ (store32 (k_wd r))).
  - rewrite (app_assoc (store32 (k_wd r))).
    by apply (load32_store32_at _ (store32 (k_wd r) ++ store32 (k_mask r))).
  - rewrite (app_assoc (store32 (k_mask r))), (app_assoc (store32 (k_wd r))).
    by apply (load32_store32_at _
                (store32 (k_wd r) ++ store32 (k_mask r) ++ store32 (k_cookie r))).
Qed.

(** * Slices and [copy] *)

Lemma slice_Some a lo hi :
  0 <= lo <= hi -> hi <= Z.of_nat (length a) ->
  slice a lo hi = Some (take (Z.to_nat (hi - lo)) (drop (Z.to_nat lo) a)).
Proof.
  intros [? ?] ?. unfold slice.
  destruct (Z.leb_spec lo hi); [|lia].
  destruct (Z.leb_spec hi (Z.of_nat (length a))); [|lia]. done.
Qed.

Lemma slice_None a lo hi :
  hi < lo \/ Z.of_nat (length a) < hi -> slice a lo hi = None.
Proof.
  intros H. unfold slice.
  destruct (Z.leb_spec lo hi); [|done].
  destruct (Z.leb_spec hi (Z.of_nat (length a))); [lia|done].
Qed.

Lemma slice_from_Some a lo :
  0 <= lo <= Z.of_nat (length a) ->
  slice_from a lo = Some (drop (Z.to_nat lo) a).
Proof.
  intros H. unfold slice_from. rewrite slice_Some by lia.
  f_equal. apply take_ge. rewrite length_drop. lia.
Qed.

Lemma slice_from_None a lo :
  Z.of_nat (length a) < lo -> slice_from a lo = None.
Proof. intros H. unfold slice_from. apply slice_None. lia. Qed.

Lemma copy_suffix a (n : nat) :
  (n <= length a)%nat -> copy a (drop n a) = shift_left n a.
Proof.
  intros H. unfold copy, shift_left. rewrite length_drop.
  f_equal. apply take_ge. rewrite length_drop. lia.
Qed.

Lemma length_shift_left n a :
  (n <= length a)%nat -> length (shift_left n a) = length a.
Proof. intros H. unfold shift_left. rewrite length_app, !length_drop. lia. Qed.

Lemma shift_left_app (pre rest : list byte) :
  exists rest', shift_left (length pre) (pre ++ rest) = rest ++ rest'.
Proof.
  unfold shift_left. rewrite drop_app_length. eauto.
Qed.

Lemma string_app_empty_r (s : string) : (s ++ "")%string = s.
Proof.
  induction s as [|c s IH]; [done|].
  change (String c (s ++ "") = String c s). by rewrite IH.
Qed.

(** * [forwardBuffer], case by case *)

Lemma front_Len_range w : is_u32 (front_Len w).
Proof. apply load32_range. Qed.

(** The identifier resolves and the name lies within the array. *)
Lemma forwardBuffer_resolved w e :
  buffer_ok w ->
  watchMap w !! front_key w = Some e ->
  syscall.SizeofInotifyEvent + front_Len w <= BUFFER_CAP ->
  forwardBuffer w = Ok (Some (front_key w), consumed w e).
Proof.
  unfold buffer_ok. intros Hbuf Hres Hfit.
  pose proof (front_Len_range w) as HL. unfold is_u32 in HL.
  unfold forwardBuffer. fold (front_key w). rewrite Hres. fold (front_Len w).
  change (u32 syscall.SizeofInotifyEvent) with 16 in *.
  change syscall.SizeofInotifyEvent with 16 in *.
  change BUFFER_CAP with 400 in *.
  assert (Hoff : u32 (16 + front_Len w) = 16 + front_Len w)
    by (apply u32_small; unfold is_u32; lia).
  destruct (Z.ltb_spec 0 (front_Len w)) as [Hpos|Hzero].
  - rewrite Hoff, slice_Some by lia.
    rewrite slice_from_Some by lia.
    cbn [set_eventBuffer set_watchMap set_bufferItem eventBuffer watchMap
         bufferItem inotifyFD epollFD wait closes].
    rewrite copy_suffix by lia.
    unfold consumed, front_event, front_name.
    change syscall.SizeofInotifyEvent with 16.
    replace (16 + front_Len w - 16) with (front_Len w) by lia.
    reflexivity.
  - assert (H0 : front_Len w = 0) by lia.
    rewrite slice_from_Some by lia.
    cbn [set_eventBuffer set_watchMap set_bufferItem eventBuffer watchMap
         bufferItem inotifyFD epollFD wait closes].
    rewrite (copy_suffix _ (Z.to_nat 16)) by lia.
    unfold consumed, front_event, front_name.
    change syscall.SizeofInotifyEvent with 16.
    rewrite H0. cbn [Z.to_nat take string_of_list_byte].
    rewrite Z.add_0_r.
    do 3 f_equal. unfold set_FileName, set_Mask. cbn.
    by rewrite string_app_empty_r.
Qed.

(** The identifier resolves but the name field runs past the array. *)
Lemma forwardBuffer_overrun w e :
  buffer_ok w ->
  watchMap w !! front_key w = Some e ->
  BUFFER_CAP < syscall.SizeofInotifyEvent + front_Len w ->
  forwardBuffer w = Panic.
Proof.
  unfold buffer_ok. intros Hbuf Hres Hfit.
  pose proof (front_Len_range w) as HL. unfold is_u32 in HL.
  unfold forwardBuffer. fold (front_key w). rewrite Hres. fold (front_Len w).
  change (u32 syscall.SizeofInotifyEvent) with 16 in *.
  change syscall.SizeofInotifyEvent with 16 in *.
  change BUFFER_CAP with 400 in *.
  destruct (Z.ltb_spec 0 (front_Len w)) as [Hpos|Hzero]; [|lia].
  rewrite slice_None; [done|].
  unfold u32. change (2 ^ 32) with 4294967296 in *.
  destruct (Z_lt_le_dec (16 + front_Len w) 4294967296).
  - right. rewrite Z.mod_small by lia. lia.
  - left. replace (16 + front_Len w) with (16 + front_Len w - 4294967296 + 1 * 4294967296) by lia.
    rewrite Z.mod_add by lia. rewrite Z.mod_small by lia. lia.
Qed.

(** The identifier does not resolve. *)
Lemma forwardBuffer_unresolved w :
  buffer_ok w -> counter_ok w ->
  watchMap w !! front_key w = None ->
  forwardBuffer w = Ok (None, cleared w).
Proof.
  unfold buffer_ok, counter_ok. intros Hbuf Hcnt Hres.
  unfold forwardBuffer. fold (front_key w). rewrite Hres.
  rewrite slice_from_Some by lia.
  rewrite copy_suffix by (change BUFFER_CAP with 400 in *; lia).
  reflexivity.
Qed.

Lemma forwardBuffer_unresolved_overrun w :
  buffer_ok w -> BUFFER_CAP < bufferItem w ->
  watchMap w !! front_key w = None ->
  forwardBuffer w = Panic.
Proof.
  unfold buffer_ok. intros Hbuf Hcnt Hres.
  unfold forwardBuffer. fold (front_key w). rewrite Hres.
  by rewrite slice_from_None by lia.
Qed.

(** The four ways a call can go. *)
Lemma forwardBuffer_cases w :
  buffer_ok w -> 0 <= bufferItem w ->
  (exists e, watchMap w !! front_key w = Some e
     /\ syscall.SizeofInotifyEvent + front_Len w <= BUFFER_CAP
     /\ forwardBuffer w = Ok (Some (front_key w), consumed w e))
  \/ (is_Some (watchMap w !! front_key w)
      /\ BUFFER_CAP < syscall.SizeofInotifyEvent + front_Len w
      /\ forwardBuffer w = Panic)
  \/ (watchMap w !! front_key w = None /\ bufferItem w <= BUFFER_CAP
      /\ forwardBuffer w = Ok (None, cleared w))
  \/ (watchMap w !! front_key w = None /\ BUFFER_CAP < bufferItem w
      /\ forwardBuffer w = Panic).
Proof.
  intros Hb H0.
  destruct (watchMap w !! front_key w) as [e|] eqn:He.
  - destruct (Z_le_gt_dec (syscall.SizeofInotifyEvent + front_Len w) BUFFER_CAP).
    + left. exists e. eauto using forwardBuffer_resolved.
    + right; left. split; [eauto|]. split; [lia|].
      apply (forwardBuffer_overrun w e); [done..|lia].
  - destruct (Z_le_gt_dec (bufferItem w) BUFFER_CAP).
    + right; right; left. repeat split; [done|].
      by apply forwardBuffer_unresolved.
    + right; right; right. repeat split; [lia|].
      apply forwardBuffer_unresolved_overrun; [done|lia|done].
Qed.

Lemma consumed_ok w e :
  buffer_ok w -> syscall.SizeofInotifyEvent + front_Len w <= BUFFER_CAP ->
  buffer_ok (consumed w e) /\ is_u32 (bufferItem (consumed w e)).
Proof.
  unfold buffer_ok, consumed. cbn [eventBuffer bufferItem]. intros Hb Hfit.
  split; [|apply u32_range].
  rewrite length_shift_left; [done|].
  pose proof (front_Len_range w) as HL. unfold is_u32 in HL.
  change syscall.SizeofInotifyEvent with 16 in *. lia.
Qed.

Lemma cleared_ok w :
  buffer_ok w -> counter_ok w -> buffer_ok (cleared w) /\ bufferItem (cleared w) = 0.
Proof.
  unfold buffer_ok, counter_ok, cleared. cbn [eventBuffer bufferItem set_eventBuffer set_bufferItem].
  intros Hb Hc. split; [|done]. rewrite length_shift_left; [done|lia].
Qed.

(** Whatever a call returns keeps the array length and a 32-bit counter. *)
Lemma forwardBuffer_ok w p w' :
  buffer_ok w -> 0 <= bufferItem w ->
  forwardBuffer w = Ok (p, w') -> buffer_ok w' /\ is_u32 (bufferItem w').
Proof.
  intros Hb H0 Hrun.
  destruct (forwardBuffer_cases w Hb H0)
    as [(e & He & Hfit & Hfb)|[(_ & _ & Hfb)|[(Hn & Hc & Hfb)|(_ & _ & Hfb)]]];
    rewrite Hfb in Hrun; try discriminate; injection Hrun as <- <-.
  - by apply consumed_ok.
  - destruct (cleared_ok w Hb) as [? ->]; [done|].
    split; [done|]. unfold is_u32. lia.
Qed.

(** * File names *)

Lemma deref_consumed w e : deref (consumed w e) (front_key w) = Some (front_event w e).
Proof. unfold deref, consumed. cbn. apply lookup_insert_eq. Qed.

Lemma length_front_name w :
  buffer_ok w -> syscall.SizeofInotifyEvent + front_Len w <= BUFFER_CAP ->
  Z.of_nat (length (front_name w)) = front_Len w.
Proof.
  unfold buffer_ok, front_name. intros Hb Hfit.
  pose proof (front_Len_range w) as HL. unfold is_u32 in HL.
  change syscall.SizeofInotifyEvent with 16 in *.
  rewrite length_take, length_drop. lia.
Qed.

(** What [forwardBuffer] writes, as the code stands: for a record at the
    front of the buffer whose watch identifier resolves to entry [e] and
    whose name field lies within the array, the call returns the pointer to
    that entry, with [Mask] the record's mask and [FileName] the stored
    path when the name length is 0, and the stored path followed by the
    [Len] bytes of the name field, as they are, when it is positive. *)
Theorem forwardBuffer_FileName w e :
  buffer_ok w ->
  watchMap w !! front_key w = Some e ->
  syscall.SizeofInotifyEvent + front_Len w <= BUFFER_CAP ->
  exists w' ev,
    forwardBuffer w = Ok (Some (front_key w), w')
    /\ deref w' (front_key w) = Some ev
    /\ Mask ev = Mask_ (event_at0 (eventBuffer w))
    /\ (front_Len w = 0 -> FileName ev = path e)
    /\ (0 < front_Len w ->
        FileName ev = (path e ++ string_of_list_byte (front_name w))%string
        /\ Z.of_nat (length (front_name w)) = front_Len w).
Proof.
  intros Hb Hres Hfit. exists (consumed w e), (front_event w e).
  split; [by apply forwardBuffer_resolved|].
  split; [apply deref_consumed|].
  split; [done|]. split.
  - intros H0. unfold front_event, front_name. rewrite H0. cbn.
    apply string_app_empty_r.
  - intros _. split; [done|]. by apply length_front_name.
Qed.

Lemma forwardBuffer_FileName_witness :
  exists w' ev,
    forwardBuffer Run.created = Ok (Some (front_key Run.created), w')
    /\ deref w' (front_key Run.created) = Some ev
    /\ Mask ev = Mask_ (event_at0 (eventBuffer Run.created))
    /\ (front_Len Run.created = 0 -> FileName ev = path Run.dir_entry)
    /\ (0 < front_Len Run.created ->
        FileName ev
        = (path Run.dir_entry ++ string_of_list_byte (front_name Run.created))%string
        /\ Z.of_nat (length (front_name Run.created)) = front_Len Run.created).
Proof.
  apply (forwardBuffer_FileName Run.created Run.dir_entry).
  - reflexivity.
  - vm_compute. reflexivity.
  - vm_compute. discriminate.
Defined.

(** C1 (the code at the failing input): after [a.txt] is created in the
    watched directory [/tmp/d], the event [forwardBuffer] returns has mask
    CREATE, but its [FileName] is [/tmp/d/a.txt] followed by the eleven NUL
    bytes with which the kernel pads the name field, not the child path
    [/tmp/d/a.txt] the claim states: the name is appended untrimmed. *)
Theorem forwardBuffer_keeps_padding :
  exists w' ev,
    strip_pad (k_name Run.rec_create) = list_byte_of_string "a.txt"
    /\ forwardBuffer Run.created = Ok (Some 1, w')
    /\ deref w' 1 = Some ev
    /\ Mask ev = IN_CREATE
    /\ FileName ev
       = ("/tmp/d/a.txt" ++ string_of_list_byte (repeat x00 11))%string
    /\ FileName ev <> unpadded_FileName Run.dir_entry (k_name Run.rec_create)
    /\ unpadded_FileName Run.dir_entry (k_name Run.rec_create) = "/tmp/d/a.txt"%string.
Proof.
  exists (consumed Run.created Run.dir_entry),
         (front_event Run.created Run.dir_entry).
  split; [reflexivity|].
  split.
  { rewrite (forwardBuffer_resolved Run.created Run.dir_entry).
    - reflexivity.
    - reflexivity.
    - vm_compute. reflexivity.
    - vm_compute. discriminate. }
  split; [apply deref_consumed|].
  split; [vm_compute; reflexivity|].
  split; [vm_compute; reflexivity|].
  split; [vm_compute; discriminate | vm_compute; reflexivity].
Qed.

(** * Records at the front of the buffer *)

Lemma length_encode r :
  Z.of_nat (length (encode r))
  = syscall.SizeofInotifyEvent + Z.of_nat (length (k_name r)).
Proof.
  unfold encode, store32. rewrite !length_app. cbn [length].
  change syscall.SizeofInotifyEvent with 16. lia.
Qed.

Lemma drop_header_encode r rest :
  drop (Z.to_nat syscall.SizeofInotifyEvent) (encode r ++ rest) = k_name r ++ rest.
Proof. unfold encode. rewrite <- !app_assoc. reflexivity. Qed.

Section Front.
Variables (w : Watcher) (r : KRecord) (rest : list byte).
Hypothesis Hwf : wf_record r.
Hypothesis Hbuf : eventBuffer w = encode r ++ rest.

Lemma front_key_encode : front_key w = k_wd r.
Proof.
  unfold front_key. rewrite Hbuf, event_at0_encode by done. cbn.
  apply u32_int32_of_bits, Hwf.
Qed.

Lemma front_Len_encode : front_Len w = Z.of_nat (length (k_name r)).
Proof. unfold front_Len. by rewrite Hbuf, event_at0_encode. Qed.

Lemma front_Mask_encode : Mask_ (event_at0 (eventBuffer w)) = k_mask r.
Proof. by rewrite Hbuf, event_at0_encode. Qed.

Lemma front_name_encode : front_name w = k_name r.
Proof.
  unfold front_name. rewrite front_Len_encode, Hbuf, drop_header_encode.
  rewrite Nat2Z.id. by rewrite take_app_length.
Qed.

Lemma front_size_encode :
  Z.to_nat (syscall.SizeofInotifyEvent + front_Len w) = length (encode r).
Proof. rewrite front_Len_encode, <- length_encode. apply Nat2Z.id. Qed.

Lemma front_fits :
  buffer_ok w -> syscall.SizeofInotifyEvent + front_Len w <= BUFFER_CAP.
Proof.
  unfold buffer_ok. rewrite front_Len_encode, Hbuf, length_app.
  pose proof (length_encode r). lia.
Qed.

Lemma event_of_front e :
  watchMap w !! k_wd r = Some e ->
  event_of (watchMap w) r = Some (front_event w e).
Proof.
  intros He. unfold event_of, front_event. rewrite He.
  by rewrite front_name_encode, front_Mask_encode.
Qed.

(** One record is parsed off the front. *)
Lemma forwardBuffer_encode e :
  buffer_ok w -> watchMap w !! k_wd r = Some e ->
  forwardBuffer w = Ok (Some (k_wd r), consumed w e).
Proof.
  intros Hb He. rewrite <- front_key_encode.
  apply forwardBuffer_resolved; [done | by rewrite front_key_encode |].
  by apply front_fits.
Qed.

Lemma consumed_buffer e :
  exists rest',
    eventBuffer (consumed w e) = rest ++ rest'.
Proof.
  unfold consumed. cbn [eventBuffer].
  rewrite front_size_encode, Hbuf. apply shift_left_app.
Qed.

Lemma consumed_buffer_ok e : buffer_ok w -> buffer_ok (consumed w e).
Proof.
  unfold buffer_ok, consumed. cbn [eventBuffer]. intros Hb.
  rewrite length_shift_left; [done|].
  rewrite front_size_encode, Hbuf, length_app. lia.
Qed.

Lemma consumed_bufferItem e n :
  0 <= n < 2 ^ 32 ->
  bufferItem w = Z.of_nat (length (encode r)) + n ->
  bufferItem (consumed w e) = n.
Proof.
  intros Hn Hcnt. unfold consumed. cbn [bufferItem].
  rewrite Hcnt, front_Len_encode, <- length_encode.
  replace (Z.of_nat (length (encode r)) + n - Z.of_nat (length (encode r)))
    with n by lia.
  by apply u32_small.
Qed.
End Front.

Lemma event_of_consumed w e r :
  watchMap w !! front_key w = Some e ->
  event_of (watchMap (consumed w e)) r = event_of (watchMap w) r.
Proof.
  intros He. unfold event_of, consumed. cbn [watchMap].
  destruct (decide (front_key w = k_wd r)) as [<-|Hne].
  - by rewrite lookup_insert_eq, He.
  - by rewrite lookup_insert_ne.
Qed.

Lemma resolves_consumed w e k :
  is_Some (watchMap w !! k) -> is_Some (watchMap (consumed w e) !! k).
Proof.
  unfold consumed. cbn [watchMap]. intros H.
  destruct (decide (front_key w = k)) as [<-|Hne].
  - rewrite lookup_insert_eq. eauto.
  - by rewrite lookup_insert_ne.
Qed.

(** * Parsing a stream of records *)

Lemma forward_n_stream recs : forall w rest,
  buffer_ok w ->
  Forall wf_record recs ->
  Forall (fun r => is_Some (watchMap w !! k_wd r)) recs ->
  eventBuffer w = stream recs ++ rest ->
  bufferItem w = Z.of_nat (length (stream recs)) ->
  exists w',
    forward_n (length recs) w = Ok (map (event_of (watchMap w)) recs, w')
    /\ bufferItem w' = 0
    /\ buffer_ok w'.
Proof.
  induction recs as [|r recs IH]; intros w rest Hb Hwf Hres Hbuf Hn.
  - exists w. cbn in *. auto.
  - apply Forall_cons in Hwf as [Hr Hwf]. apply Forall_cons in Hres as [[e He] Hres].
    cbn [stream] in Hbuf, Hn. rewrite <- app_assoc in Hbuf.
    rewrite length_app in Hn.
    pose proof (front_key_encode w r _ Hr Hbuf) as Hkey.
    destruct (consumed_buffer w r _ Hr Hbuf e) as [rest' Hbuf'].
    rewrite <- app_assoc in Hbuf'.
    destruct (IH (consumed w e) (rest ++ rest')) as (w' & Hrun & H0 & Hb').
    + by eapply consumed_buffer_ok.
    + done.
    + eapply Forall_impl; [exact Hres|]. intros r' Hr'. by apply resolves_consumed.
    + done.
    + apply (consumed_bufferItem w r _ Hr Hbuf); [|lia].
      unfold buffer_ok in Hb. rewrite Hbuf, !length_app in Hb.
      change BUFFER_CAP with 400 in Hb. lia.
    + exists w'. split; [|done].
      cbn [length forward_n map].
      rewrite (forwardBuffer_encode w r _ Hr Hbuf e Hb He), Hrun.
      cbn [mbind option_bind]. rewrite <- Hkey at 1. rewrite deref_consumed.
      rewrite (event_of_front w r _ Hr Hbuf e He).
      do 3 f_equal. apply map_ext. intros r'. apply event_of_consumed.
      by rewrite Hkey.
Qed.

Lemma events_resolved (m : gmap Z WatchSingle) recs :
  Forall (fun r => is_Some (m !! k_wd r)) recs ->
  exists evs,
    map (event_of m) recs = map Some evs
    /\ Forall2 (fun r ev =>
         exists e, m !! k_wd r = Some e
           /\ Mask ev = k_mask r
           /\ FileName ev = (path e ++ string_of_list_byte (k_name r))%string)
         recs evs.
Proof.
  induction 1 as [|r recs [e He] _ (evs & Hmap & Hall)].
  - exists []. split; [done | constructor].
  - exists (set_FileName (path e ++ string_of_list_byte (k_name r))
              (set_Mask (k_mask r) e) :: evs).
    split.
    + cbn [map]. rewrite Hmap. unfold event_of. by rewrite He.
    + constructor; [|done]. exists e. by repeat split.
Qed.

(** C2: when the buffer holds exactly the bytes of N well-formed records
    whose watch identifiers all resolve, N successive calls of
    [forwardBuffer] return N events, the i-th being the event of the i-th
    record (its mask, and the stored path of its entry followed by its name
    field), and the byte count [bufferItem] is 0 afterwards. *)
Theorem forwardBuffer_stream_in_order recs w rest :
  buffer_ok w ->
  Forall wf_record recs ->
  Forall (fun r => is_Some (watchMap w !! k_wd r)) recs ->
  eventBuffer w = stream recs ++ rest ->
  bufferItem w = Z.of_nat (length (stream recs)) ->
  exists evs w',
    forward_n (length recs) w = Ok (map Some evs, w')
    /\ length evs = length recs
    /\ Forall2 (fun r ev =>
         exists e, watchMap w !! k_wd r = Some e
           /\ Mask ev = k_mask r
           /\ FileName ev = (path e ++ string_of_list_byte (k_name r))%string)
         recs evs
    /\ bufferItem w' = 0.
Proof.
  intros Hb Hwf Hres Hbuf Hn.
  destruct (forward_n_stream recs w rest Hb Hwf Hres Hbuf Hn) as (w' & Hrun & H0 & _).
  destruct (events_resolved (watchMap w) recs Hres) as (evs & Hmap & Hall).
  exists evs, w'. rewrite Hrun, Hmap. repeat split; try done.
  symmetry. by eapply Forall2_length.
Qed.

Lemma forwardBuffer_stream_in_order_witness :
  exists evs w',
    forward_n 2 Run.created_deleted = Ok (map Some evs, w')
    /\ length evs = 2%nat
    /\ Forall2 (fun r ev =>
         exists e, watchMap Run.created_deleted !! k_wd r = Some e
           /\ Mask ev = k_mask r
           /\ FileName ev = (path e ++ string_of_list_byte (k_name r))%string)
         [Run.rec_create; Run.rec_delete] evs
    /\ bufferItem w' = 0.
Proof.
  apply (forwardBuffer_stream_in_order [Run.rec_create; Run.rec_delete]
           Run.created_deleted
           (repeat x00 (Z.to_nat BUFFER_CAP - 64))).
  - reflexivity.
  - repeat constructor; vm_compute; congruence.
  - repeat constructor; exists Run.dir_entry; reflexivity.
  - reflexivity.
  - reflexivity.
Defined.

(** * Classification *)

Ltac case_bits :=
  match goal with
  | |- context [has_bits ?m ?b] =>
      let E := fresh "E" in destruct (has_bits m b) eqn:E
  end.

(** C3: for every mask, and provided the registry still holds the entry
    on the three labels whose case reads it, [GetEventName] returns the
    one label the priority order self-delete, self-move, create, delete,
    open, close, close-write, close-no-write, move, moved-from, moved-to,
    modify, attribute-change, terminal-ignored selects: that of the first
    entry in this order whose bits are all set, else the unknown label. *)
Theorem GetEventName_priority ws w :
  (uses_registry ws = true -> is_Some (watchMap w !! watchId ws)) ->
  exists w' t, GetEventName ws w = Ok (spec_label (Mask ws), w', t).
Proof.
  unfold uses_registry, spec_label, priority, GetEventName, store_remove.
  cbn [first_match]. intros Hreg.
  repeat (case_bits; [| try (eexists _, _; reflexivity)]);
    try (eexists _, _; reflexivity).
  all: destruct (watch ws); [|eexists _, _; reflexivity].
  all: destruct Hreg as [e He]; [reflexivity|]; rewrite He.
  all: try (eexists _, _; reflexivity).
  destruct (remove e); eexists _, _; reflexivity.
Qed.

Lemma GetEventName_priority_witness :
  exists w' t,
    GetEventName (set_Mask (Z.lor IN_CREATE IN_MODIFY) Run.dir_entry) Run.watching
    = Ok (spec_label (Z.lor IN_CREATE IN_MODIFY), w', t).
Proof.
  apply (GetEventName_priority
           (set_Mask (Z.lor IN_CREATE IN_MODIFY) Run.dir_entry) Run.watching).
  vm_compute. discriminate.
Defined.

(** The label never depends on anything but the mask. *)
Lemma GetEventName_label ws w l w' t :
  GetEventName ws w = Ok (l, w', t) -> l = spec_label (Mask ws).
Proof.
  unfold spec_label, priority, GetEventName, store_remove.
  cbn [first_match].
  repeat (case_bits; [| try (intros [= <- _ _]; reflexivity)]);
    try (intros [= <- _ _]; reflexivity).
  all: destruct (watch ws); [|intros [= <- _ _]; reflexivity].
  all: destruct (watchMap w !! watchId ws) as [e|]; [|discriminate].
  all: try (intros [= <- _ _]; reflexivity).
  destruct (remove e); intros [= <- _ _]; reflexivity.
Qed.

(** * The removal life cycle *)

Lemma spec_label_move_self mask :
  has_bits mask IN_DELETE_SELF = false -> has_bits mask IN_MOVE_SELF = true ->
  spec_label mask = "MOVE_SELF"%string.
Proof. intros H1 H2. unfold spec_label, priority. cbn. by rewrite H1, H2. Qed.

Lemma GetEventName_move_self ws w e :
  watch ws = true ->
  has_bits (Mask ws) IN_DELETE_SELF = false ->
  has_bits (Mask ws) IN_MOVE_SELF = true ->
  watchMap w !! watchId ws = Some e ->
  GetEventName ws w
  = Ok ("MOVE_SELF"%string,
        set_watchMap (<[watchId ws := set_remove true e]> (watchMap w)) w,
        [SysInotifyRmWatch (inotifyFD w) (watchId ws)]).
Proof.
  intros Hw H1 H2 He. unfold GetEventName, store_remove.
  by rewrite H1, H2, Hw, He.
Qed.

Lemma GetEventName_ignored ws w e :
  watch ws = true ->
  spec_label (Mask ws) = "REMOVE"%string ->
  watchMap w !! watchId ws = Some e ->
  GetEventName ws w
  = Ok ("REMOVE"%string,
        if remove e then set_watchMap (delete (watchId ws) (watchMap w)) w else w,
        []).
Proof.
  unfold spec_label, priority, GetEventName. cbn [first_match].
  intros Hw Hl He.
  repeat (case_bits; [discriminate Hl|]).
  case_bits; [|discriminate Hl].
  rewrite Hw, He. by destruct (remove e).
Qed.

(** C8: for a registry entry [e] under identifier [id]: classifying a
    self-move event of that identifier marks the entry pending-removal and
    issues [InotifyRmWatch] for [id]; classifying a terminal-ignored event
    of that identifier afterwards deletes the entry, so that resolving [id]
    yields nothing; and the terminal-ignored event deletes nothing when the
    entry is not pending-removal. *)
Theorem GetEventName_move_self_then_ignored w id e mv ig :
  watchMap w !! id = Some e ->
  watch mv = true -> watchId mv = id ->
  has_bits (Mask mv) IN_MOVE_SELF = true ->
  has_bits (Mask mv) IN_DELETE_SELF = false ->
  watch ig = true -> watchId ig = id ->
  spec_label (Mask ig) = "REMOVE"%string ->
  exists w1 w2 e1,
    GetEventName mv w
    = Ok ("MOVE_SELF"%string, w1, [SysInotifyRmWatch (inotifyFD w) id])
    /\ watchMap w1 !! id = Some e1 /\ remove e1 = true
    /\ (forall k, k <> id -> watchMap w1 !! k = watchMap w !! k)
    /\ GetEventName ig w1 = Ok ("REMOVE"%string, w2, [])
    /\ watchMap w2 !! id = None
    /\ (forall k, k <> id -> watchMap w2 !! k = watchMap w !! k)
    /\ (remove e = false -> GetEventName ig w = Ok ("REMOVE"%string, w, [])).
Proof.
  intros He Hmv <- Hb1 Hb2 Hig Hid Hl.
  set (w1 := set_watchMap (<[watchId mv := set_remove true e]> (watchMap w)) w).
  exists w1, (set_watchMap (delete (watchId mv) (watchMap w1)) w1),
         (set_remove true e).
  split; [by apply GetEventName_move_self|].
  split; [apply lookup_insert_eq|].
  split; [done|].
  split; [intros k Hk; cbn; by rewrite lookup_insert_ne|].
  split.
  { rewrite (GetEventName_ignored ig w1 (set_remove true e)); try done.
    - by rewrite Hid.
    - rewrite Hid. apply lookup_insert_eq. }
  split; [apply lookup_delete_eq|].
  split; [intros k Hk; cbn; by rewrite lookup_delete_ne, lookup_insert_ne|].
  intros Hr. rewrite (GetEventName_ignored ig w e); try done.
  - by rewrite Hr.
  - by rewrite Hid.
Qed.

Lemma GetEventName_move_self_then_ignored_witness :
  exists w1 w2 e1,
    GetEventName (set_Mask IN_MOVE_SELF Run.dir_entry) Run.watching
    = Ok ("MOVE_SELF"%string, w1, [SysInotifyRmWatch (inotifyFD Run.watching) 1])
    /\ watchMap w1 !! 1 = Some e1 /\ remove e1 = true
    /\ (forall k, k <> 1 -> watchMap w1 !! k = watchMap Run.watching !! k)
    /\ GetEventName (set_Mask syscall.IN_IGNORED Run.dir_entry) w1
       = Ok ("REMOVE"%string, w2, [])
    /\ watchMap w2 !! 1 = None
    /\ (forall k, k <> 1 -> watchMap w2 !! k = watchMap Run.watching !! k)
    /\ (remove Run.dir_entry = false ->
        GetEventName (set_Mask syscall.IN_IGNORED Run.dir_entry) Run.watching
        = Ok ("REMOVE"%string, Run.watching, [])).
Proof.
  apply (GetEventName_move_self_then_ignored Run.watching 1 Run.dir_entry
           (set_Mask IN_MOVE_SELF Run.dir_entry)
           (set_Mask syscall.IN_IGNORED Run.dir_entry));
    reflexivity.
Defined.

(** * Panics of [GetEventName] *)

(** C10: with a non-nil back-reference and the self-delete or self-move
    bit set, [GetEventName] panics exactly when [watchId] is not a key of
    the registry; in particular it panics once a terminal-ignored event has
    finalized the entry. *)
Theorem GetEventName_self_panics ws w :
  watch ws = true ->
  has_bits (Mask ws) IN_DELETE_SELF = true
  \/ has_bits (Mask ws) IN_MOVE_SELF = true ->
  (GetEventName ws w = Panic <-> watchMap w !! watchId ws = None)
  /\ (forall ig w0 e,
        watch ig = true -> watchId ig = watchId ws ->
        spec_label (Mask ig) = "REMOVE"%string ->
        watchMap w0 !! watchId ws = Some e -> remove e = true ->
        exists w1,
          GetEventName ig w0 = Ok ("REMOVE"%string, w1, [])
          /\ GetEventName ws w1 = Panic).
Proof.
  intros Hw Hbits.
  assert (Hiff : forall w, GetEventName ws w = Panic
                           <-> watchMap w !! watchId ws = None).
  { clear w. intros w. unfold GetEventName, store_remove. rewrite Hw.
    destruct (has_bits (Mask ws) IN_DELETE_SELF) eqn:E1.
    - destruct (watchMap w !! watchId ws); split; congruence.
    - destruct Hbits as [?|E2]; [congruence|]. rewrite E2.
      destruct (watchMap w !! watchId ws); split; congruence. }
  split; [apply Hiff|].
  intros ig w0 e Hig Hid Hl He Hr. eexists. split.
  - erewrite GetEventName_ignored; [|done|done|by rewrite Hid].
    rewrite Hr. reflexivity.
  - apply Hiff. rewrite Hid. cbn. apply lookup_delete_eq.
Qed.

Lemma GetEventName_self_panics_witness :
  let ws := set_Mask IN_DELETE_SELF Run.dir_entry in
  (GetEventName ws Run.fresh = Panic <-> watchMap Run.fresh !! watchId ws = None)
  /\ (forall ig w0 e,
        watch ig = true -> watchId ig = watchId ws ->
        spec_label (Mask ig) = "REMOVE"%string ->
        watchMap w0 !! watchId ws = Some e -> remove e = true ->
        exists w1,
          GetEventName ig w0 = Ok ("REMOVE"%string, w1, [])
          /\ GetEventName ws w1 = Panic).
Proof.
  apply (GetEventName_self_panics (set_Mask IN_DELETE_SELF Run.dir_entry) Run.fresh).
  - reflexivity.
  - left. reflexivity.
Defined.

(** * Registration *)

Lemma set_flags_id e : set_flags (flags e) e = e.
Proof. by destruct e. Qed.

Lemma register_present wd p info fl w e :
  watchMap w !! u32 wd = Some e ->
  register wd p info fl w
  = Ok (set_watchMap
          (<[u32 wd := set_flags (Z.lor (flags e) fl) e]> (watchMap w)) w).
Proof. intros He. unfold register. by rewrite He. Qed.

Lemma register_absent wd p dir fl w :
  watchMap w !! u32 wd = None ->
  register wd p (Some dir) fl w
  = Ok (set_watchMap
          (<[u32 wd := mkWatchSingle (stored_path p dir) dir (u32 wd) fl
                         true false "" 0]> (watchMap w)) w).
Proof.
  intros He. unfold register, stored_path. rewrite He.
  destruct dir; cbn; by rewrite insert_insert_eq, Z.lor_diag.
Qed.

Lemma AddWatch_of_succeeds v p absP dir wd env fl w :
  succeeds v p absP dir wd (env, fl) ->
  AddWatch_of v env p fl w
  = match register wd absP (Some dir) fl w with
    | Ok w' =>
        Ok (None, w', [SysInotifyAddWatch (inotifyFD w) absP (kernel_mask fl)])
    | Panic => Panic
    end.
Proof.
  intros (Habs & Hstat & Hadd). cbn [fst] in *.
  destruct v; cbn [AddWatch_of]; unfold AddWatch, AddWatch_lazy.
  - by rewrite Habs, Hstat, Hadd.
  - subst absP. by rewrite Hstat, Hadd.
Qed.

(** A failed call returns the watcher it was given. *)
Lemma AddWatch_of_failed v env p fl w err w' t :
  AddWatch_of v env p fl w = Ok (Some err, w', t) -> w' = w.
Proof.
  destruct v; cbn [AddWatch_of]; unfold AddWatch, AddWatch_lazy.
  - destruct (abs_result env) as [p' [e|]]; [congruence|].
    destruct (stat_result env); [|congruence].
    destruct (add_result env) as [wd [e|]]; [congruence|].
    destruct (register _ _ _ _ _); congruence.
  - destruct (add_result env) as [wd [e|]]; [congruence|].
    destruct (register _ _ _ _ _); congruence.
Qed.

Lemma AddWatch_all_present v p absP dir wd calls : forall w e,
  Forall (succeeds v p absP dir wd) calls ->
  watchMap w !! u32 wd = Some e ->
  AddWatch_all v calls p w
  = Ok (map (fun _ => None) calls,
        set_watchMap
          (<[u32 wd := set_flags (Z.lor (flags e) (flags_union (map snd calls))) e]>
             (watchMap w)) w).
Proof.
  induction calls as [|[env fl] calls IH]; intros w e Hall He.
  - cbn. rewrite Z.lor_0_r, set_flags_id, insert_id by done. by destruct w.
  - apply Forall_cons in Hall as [Hc Hall]. cbn [AddWatch_all].
    rewrite (AddWatch_of_succeeds _ _ _ _ _ _ _ _ Hc).
    rewrite (register_present _ _ _ _ _ e He).
    erewrite IH; [|done|cbn; apply lookup_insert_eq].
    cbn [map snd flags_union foldr set_watchMap watchMap flags set_flags
         inotifyFD epollFD eventBuffer bufferItem wait closes].
    by rewrite insert_insert_eq, Z.lor_assoc.
Qed.

(** C4: a non-empty sequence of successful [AddWatch] calls on one path,
    all answered with the same watch descriptor, from a registry that has no
    entry for it yet, leaves exactly one entry for that path, under that
    descriptor, whose [flags] is the bitwise union of all the flags
    requested, and leaves the other entries alone; and a call that returns
    an error returns the watcher unchanged.  Both variants. *)
Theorem AddWatch_same_path v p absP dir wd calls w :
  calls <> [] ->
  Forall (succeeds v p absP dir wd) calls ->
  watchMap w !! u32 wd = None ->
  (forall k e, watchMap w !! k = Some e -> path e <> stored_path absP dir) ->
  (exists w' e,
      AddWatch_all v calls p w = Ok (map (fun _ => None) calls, w')
      /\ watchMap w' !! u32 wd = Some e
      /\ path e = stored_path absP dir
      /\ flags e = flags_union (map snd calls)
      /\ (forall k e', watchMap w' !! k = Some e' ->
                       path e' = stored_path absP dir -> k = u32 wd)
      /\ (forall k, k <> u32 wd -> watchMap w' !! k = watchMap w !! k))
  /\ (forall env fl err w' t,
        AddWatch_of v env p fl w = Ok (Some err, w', t) -> w' = w).
Proof.
  intros Hne Hall Hnone Hpaths. split; [|intros; by eapply AddWatch_of_failed].
  destruct calls as [|[env fl] calls]; [done|].
  apply Forall_cons in Hall as [Hc Hall].
  set (e0 := mkWatchSingle (stored_path absP dir) dir (u32 wd) fl true false "" 0).
  set (w1 := set_watchMap (<[u32 wd := e0]> (watchMap w)) w).
  exists (set_watchMap
            (<[u32 wd := set_flags (Z.lor (flags e0) (flags_union (map snd calls))) e0]>
               (watchMap w1)) w1), (set_flags (Z.lor fl (flags_union (map snd calls))) e0).
  split.
  { cbn [AddWatch_all]. rewrite (AddWatch_of_succeeds _ _ _ _ _ _ _ _ Hc).
    rewrite register_absent by done. fold e0. fold w1.
    by rewrite (AddWatch_all_present v p absP dir wd calls w1 e0 Hall
                  (lookup_insert_eq _ _ _)). }
  cbn [watchMap set_watchMap w1 flags e0].
  split; [apply lookup_insert_eq|].
  split; [done|]. split; [done|]. split.
  - intros k e' Hk Hp. destruct (decide (k = u32 wd)) as [|Hd]; [done|].
    rewrite !lookup_insert_ne in Hk by done. by destruct (Hpaths k e' Hk).
  - intros k Hk. by rewrite !lookup_insert_ne.
Qed.

Lemma AddWatch_same_path_witness :
  let calls := [(Run.add_env, IN_CREATE); (Run.add_env, IN_DELETE)] in
  (exists w' e,
      AddWatch_all Eager calls "/tmp/d" Run.fresh
      = Ok (map (fun _ => None) calls, w')
      /\ watchMap w' !! u32 1 = Some e
      /\ path e = stored_path "/tmp/d" true
      /\ flags e = flags_union (map snd calls)
      /\ (forall k e', watchMap w' !! k = Some e' ->
                       path e' = stored_path "/tmp/d" true -> k = u32 1)
      /\ (forall k, k <> u32 1 -> watchMap w' !! k = watchMap Run.fresh !! k))
  /\ (forall env fl err w' t,
        AddWatch_of Eager env "/tmp/d" fl Run.fresh = Ok (Some err, w', t) ->
        w' = Run.fresh).
Proof.
  apply (AddWatch_same_path Eager "/tmp/d" "/tmp/d" true 1
           [(Run.add_env, IN_CREATE); (Run.add_env, IN_DELETE)] Run.fresh).
  - discriminate.
  - repeat constructor.
  - reflexivity.
  - intros k e H. vm_compute in H. discriminate H.
Defined.

(** The concrete run: [NewWatcher], then [AddWatch] on the directory. *)
Example Run_fresh : NewWatcher Run.env0 = (Some Run.fresh, None, []).
Proof. reflexivity. Qed.

Example Run_watching :
  AddWatch Run.add_env "/tmp/d" Run.add_flags Run.fresh
  = Ok (None, Run.watching,
        [SysInotifyAddWatch 3 "/tmp/d" (kernel_mask Run.add_flags)]).
Proof.
  unfold AddWatch. cbn [Run.add_env abs_result stat_result add_result].
  rewrite register_absent by reflexivity. reflexivity.
Qed.

Example Run_created :
  epollWait_ready (ReadData (encode Run.rec_create)) Run.watching
  = Ok (Run.created, [SysRead 3 400]).
Proof. vm_compute. reflexivity. Qed.

(** The end-to-end run of the specification: the file is created and
    deleted, and two calls of [WaitEvent] hand out the two events in that
    order, each with the padded name. *)
Example WaitEvent_create_then_delete :
  exists ev1 w1 ev2 w2,
    WaitEvent (fun w => w) Run.created_deleted = Ok (ev1, None, w1)
    /\ WaitEvent (fun w => w) w1 = Ok (ev2, None, w2)
    /\ Mask ev1 = IN_CREATE /\ Mask ev2 = IN_DELETE
    /\ FileName ev1 = FileName ev2
    /\ FileName ev1
       = ("/tmp/d/a.txt" ++ string_of_list_byte (repeat x00 11))%string
    /\ bufferItem w2 = 0.
Proof.
  eexists _, _, _, _.
  split; [vm_compute; reflexivity|].
  split; [vm_compute; reflexivity|].
  repeat split; vm_compute; reflexivity.
Qed.

(** * The unresolved identifier *)

(** C5: when [WaitEvent] reaches the parser with a record whose watch
    identifier is not in the registry, the parser returns nil and sets
    [bufferItem] to 0, whatever else was buffered, and [WaitEvent] returns
    the error of its last line, which differs from its two other errors,
    and no event. *)
Theorem WaitEvent_unresolved wake w w1 :
  wait_phase wake w = Some w1 ->
  buffer_ok w1 ->
  syscall.SizeofInotifyEvent <= bufferItem w1 <= BUFFER_CAP ->
  watchMap w1 !! front_key w1 = None ->
  exists w',
    forwardBuffer w1 = Ok (None, w')
    /\ WaitEvent wake w = Ok (WatchSingle_zero, Some ErrDeletedOrRenamed, w')
    /\ bufferItem w' = 0
    /\ watchMap w' = watchMap w1
    /\ ErrDeletedOrRenamed <> ErrClosed
    /\ ErrDeletedOrRenamed <> ErrCrossLines.
Proof.
  intros Hph Hb Hcnt Hres.
  change syscall.SizeofInotifyEvent with 16 in Hcnt.
  assert (Hfb := forwardBuffer_unresolved w1 Hb).
  rewrite Hfb; [|unfold counter_ok; lia | done].
  eexists. split; [reflexivity|]. split.
  - unfold WaitEvent. rewrite Hph.
    destruct (Z.ltb_spec (bufferItem w1) (u32 syscall.SizeofInotifyEvent)) as [Hlt|_].
    + change (u32 syscall.SizeofInotifyEvent) with 16 in Hlt. lia.
    + rewrite Hfb; [done| |done]. unfold counter_ok; lia.
  - repeat split; done.
Qed.

Lemma WaitEvent_unresolved_witness :
  exists w',
    forwardBuffer Run.stray = Ok (None, w')
    /\ WaitEvent (fun w => w) Run.stray
       = Ok (WatchSingle_zero, Some ErrDeletedOrRenamed, w')
    /\ bufferItem w' = 0
    /\ watchMap w' = watchMap Run.stray
    /\ ErrDeletedOrRenamed <> ErrClosed
    /\ ErrDeletedOrRenamed <> ErrCrossLines.
Proof.
  apply (WaitEvent_unresolved (fun w => w) Run.stray Run.stray).
  - reflexivity.
  - reflexivity.
  - vm_compute. split; discriminate.
  - reflexivity.
Defined.

(** * The reactor's critical section *)

Lemma read_tail_overrun r w :
  buffer_ok w -> BUFFER_CAP < bufferItem w -> read_tail r w = Panic.
Proof.
  unfold buffer_ok. intros Hb Hc. unfold read_tail.
  by rewrite slice_from_None by lia.
Qed.

Lemma read_tail_ok r w :
  buffer_ok w -> counter_ok w ->
  exists w' t,
    read_tail r w = Ok (w', t)
    /\ buffer_ok w' /\ counter_ok w'
    /\ bufferItem w <= bufferItem w'
    /\ take (Z.to_nat (bufferItem w)) (eventBuffer w')
       = take (Z.to_nat (bufferItem w)) (eventBuffer w)
    /\ appended r w w'.
Proof.
  unfold buffer_ok, counter_ok. change BUFFER_CAP with 400. intros Hb Hc.
  unfold read_tail. rewrite slice_from_Some by lia.
  destruct r as [data|err].
  2:{ eexists _, _. split; [reflexivity|].
      unfold buffer_ok, counter_ok, appended. change BUFFER_CAP with 400.
      repeat split; (done || lia). }
  set (p := drop (Z.to_nat (bufferItem w)) (eventBuffer w)).
  set (got := take (length p) data).
  assert (Hp : Z.of_nat (length p) = 400 - bufferItem w).
  { unfold p. rewrite length_drop. lia. }
  assert (Hgot : Z.of_nat (length got)
                 = Z.min (Z.of_nat (length data)) (400 - bufferItem w)).
  { unfold got. rewrite length_take. lia. }
  assert (Hcopy : copy p got = got ++ drop (length got) p).
  { unfold copy. f_equal. apply take_ge. unfold got. rewrite length_take. lia. }
  eexists _, _. split; [reflexivity|].
  cbn [set_eventBuffer set_bufferItem eventBuffer bufferItem].
  rewrite Hcopy.
  assert (Hu : u32 (bufferItem w + Z.of_nat (length got))
               = bufferItem w + Z.of_nat (length got)).
  { apply u32_small. unfold is_u32. lia. }
  rewrite Hu. unfold buffer_ok, counter_ok, appended.
  cbn [eventBuffer bufferItem set_eventBuffer set_bufferItem].
  change BUFFER_CAP with 400.
  split; [|split; [|split; [|split; [|split]]]].
  - rewrite !length_app, length_take, length_drop. unfold p in *.
    rewrite length_drop in *. lia.
  - lia.
  - lia.
  - rewrite take_app_le by (rewrite length_take; lia).
    apply take_idemp.
  - lia.
  - rewrite <- Hgot, Nat2Z.id.
    rewrite drop_app_length' by (rewrite length_take; lia).
    rewrite take_app_length. unfold got.
    by rewrite length_take, <- take_take, (take_ge data (length data)).
Qed.

Lemma epollWait_ready_below r w :
  bufferItem w <= MAX_ITEM -> epollWait_ready r w = read_tail r w.
Proof.
  intros H. unfold epollWait_ready.
  destruct (Z.ltb_spec (u32 MAX_ITEM) (bufferItem w)) as [Hlt|_]; [|done].
  change (u32 MAX_ITEM) with 320 in Hlt. change MAX_ITEM with 320 in H. lia.
Qed.

Lemma epollWait_ready_above r w :
  MAX_ITEM < bufferItem w ->
  epollWait_ready r w
  = match forwardBuffer w with
    | Ok (_, w1) => read_tail r w1
    | Panic => Panic
    end.
Proof.
  intros H. unfold epollWait_ready.
  destruct (Z.ltb_spec (u32 MAX_ITEM) (bufferItem w)) as [_|Hge].
  - by destruct (forwardBuffer w) as [[? ?]|].
  - change (u32 MAX_ITEM) with 320 in Hge. change MAX_ITEM with 320 in H. lia.
Qed.

(** A wake-up with one readable event on the inotify descriptor runs the
    critical section once and schedules the next run. *)
Lemma epollWait_readable r w :
  epollWait (EpollReady [(mkEpollEvent EPOLLIN (int32_of_bits (u32 (inotifyFD w))), r)]) w
  = match epollWait_ready r w with
    | Ok (w', t) => Ok (w', t, true)
    | Panic => Panic
    end.
Proof.
  unfold epollWait, epollWait_loop. cbn [Events Fd].
  change (Z.land EPOLLIN EPOLLHUP =? 0) with true.
  change (Z.land EPOLLIN EPOLLERR =? 0) with true.
  change (Z.land EPOLLIN EPOLLIN =? 0) with false.
  rewrite Z.eqb_refl. cbn [negb orb].
  destruct (epollWait_ready r w) as [[w' t]|]; [|done].
  by rewrite app_nil_r.
Qed.

(** C6: in the critical section the reactor runs for a ready event, a
    byte count above [MAX_ITEM] (20 headers, four fifths of the array)
    makes exactly one [forwardBuffer] call precede the read and a count of at
    most [MAX_ITEM] none; the read stores at most as many bytes as the
    free tail of the array takes, behind the bytes already buffered, which
    it leaves as they are; so [bufferItem] never exceeds the length of the
    array after the section. *)
Theorem epollWait_ready_high_water r w :
  buffer_ok w -> counter_ok w ->
  (bufferItem w <= MAX_ITEM -> epollWait_ready r w = read_tail r w)
  /\ (MAX_ITEM < bufferItem w ->
      match forwardBuffer w with
      | Ok (_, w1) => epollWait_ready r w = read_tail r w1
      | Panic => epollWait_ready r w = Panic
      end)
  /\ (forall w1, buffer_ok w1 -> counter_ok w1 ->
      exists w' t,
        read_tail r w1 = Ok (w', t)
        /\ buffer_ok w' /\ counter_ok w'
        /\ bufferItem w1 <= bufferItem w'
        /\ take (Z.to_nat (bufferItem w1)) (eventBuffer w')
           = take (Z.to_nat (bufferItem w1)) (eventBuffer w1)
        /\ appended r w1 w')
  /\ (forall w' t, epollWait_ready r w = Ok (w', t) ->
      buffer_ok w' /\ counter_ok w')
  /\ MAX_ITEM = 20 * syscall.SizeofInotifyEvent
  /\ 5 * MAX_ITEM = 4 * BUFFER_CAP.
Proof.
  intros Hb Hc.
  split; [apply epollWait_ready_below|].
  split.
  { intros H. rewrite (epollWait_ready_above r w H).
    by destruct (forwardBuffer w) as [[? ?]|]. }
  split; [apply read_tail_ok|].
  split; [|done].
  intros w' t Hrun.
  assert (Hfrom : exists w1, buffer_ok w1 /\ 0 <= bufferItem w1
                             /\ read_tail r w1 = Ok (w', t)).
  { destruct (Z_le_gt_dec (bufferItem w) MAX_ITEM) as [Hle|Hgt].
    - rewrite epollWait_ready_below in Hrun by done.
      exists w. unfold counter_ok in Hc. repeat split; (done || lia).
    - rewrite epollWait_ready_above in Hrun by lia.
      destruct (forwardBuffer w) as [[p w1]|] eqn:Hfb; [|done].
      exists w1. unfold counter_ok in Hc.
      destruct (forwardBuffer_ok w p w1 Hb) as [? [? ?]]; [lia|done|done]. }
  destruct Hfrom as (w1 & Hb1 & H01 & Hrd).
  destruct (Z_le_gt_dec (bufferItem w1) BUFFER_CAP) as [Hle|Hgt].
  - destruct (read_tail_ok r w1 Hb1) as (w2 & t2 & Hrd2 & ? & ? & _);
      [by unfold counter_ok|].
    rewrite Hrd2 in Hrd. by injection Hrd as <- <-.
  - rewrite read_tail_overrun in Hrd by (done || lia). done.
Qed.

Lemma epollWait_ready_high_water_witness :
  let r := ReadData (stream (repeat Run.rec_delete 3)) in
  let w := Run.burst in
  (bufferItem w <= MAX_ITEM -> epollWait_ready r w = read_tail r w)
  /\ (MAX_ITEM < bufferItem w ->
      match forwardBuffer w with
      | Ok (_, w1) => epollWait_ready r w = read_tail r w1
      | Panic => epollWait_ready r w = Panic
      end)
  /\ (forall w1, buffer_ok w1 -> counter_ok w1 ->
      exists w' t,
        read_tail r w1 = Ok (w', t)
        /\ buffer_ok w' /\ counter_ok w'
        /\ bufferItem w1 <= bufferItem w'
        /\ take (Z.to_nat (bufferItem w1)) (eventBuffer w')
           = take (Z.to_nat (bufferItem w1)) (eventBuffer w1)
        /\ appended r w1 w')
  /\ (forall w' t, epollWait_ready r w = Ok (w', t) ->
      buffer_ok w' /\ counter_ok w')
  /\ MAX_ITEM = 20 * syscall.SizeofInotifyEvent
  /\ 5 * MAX_ITEM = 4 * BUFFER_CAP.
Proof.
  apply (epollWait_ready_high_water
           (ReadData (stream (repeat Run.rec_delete 3))) Run.burst).
  - reflexivity.
  - vm_compute. split; discriminate.
Defined.

(** The section on the concrete burst: 352 bytes buffered, 96 offered;
    one record is parsed off (320 left) and 80 of the 96 bytes are
    stored. *)
Example epollWait_ready_burst :
  exists w',
    epollWait_ready (ReadData (stream (repeat Run.rec_delete 3))) Run.burst
    = Ok (w', [SysRead 3 80])
    /\ bufferItem w' = BUFFER_CAP.
Proof.
  eexists. split; [vm_compute; reflexivity|]. reflexivity.
Qed.

(** The event of the record that the forced call parses off is returned
    to nobody: of eleven buffered creations, the consumer is handed ten. *)
Example epollWait_ready_drops_event :
  exists w' t evs w'',
    epollWait_ready (ReadErr Errno_.EINTR) Run.burst = Ok (w', t)
    /\ bufferItem w' = 320
    /\ forward_n 11 w' = Ok (evs, w'')
    /\ length (filter is_Some evs) = 10%nat.
Proof.
  eexists _, _, _, _.
  split; [vm_compute; reflexivity|].
  split; [reflexivity|].
  split; [vm_compute; reflexivity|].
  vm_compute. reflexivity.
Qed.

(** * [Close] *)

(** [Close] never writes the descriptors, so a second call does what the
    first did. *)
Lemma Close_again w : Close (Close w).1 = Close w.
Proof. reflexivity. Qed.

Lemma Close_releases w :
  inotifyFD w <> -1 -> epollFD w <> -1 ->
  (Close w).2 = [SysClose (inotifyFD w); SysClose (epollFD w)].
Proof.
  intros H1 H2. unfold Close. cbn [snd].
  destruct (Z.eqb_spec (inotifyFD w) (-1)); [done|].
  destruct (Z.eqb_spec (epollFD w) (-1)); [done|]. reflexivity.
Qed.

(** C7 (the code at the failing input): on the watcher [NewWatcher]
    returns for descriptors 3 and 4, a second [Close] after a first one
    closes both descriptors once more. *)
Theorem Close_twice_releases_again :
  NewWatcher Run.env0 = (Some Run.fresh, None, [])
  /\ (Close Run.fresh).2 = [SysClose 3; SysClose 4]
  /\ (Close (Close Run.fresh).1).2 = [SysClose 3; SysClose 4].
Proof. repeat split. Qed.

(** * The unchecked subtraction *)

Lemma consumed_bufferItem_complete w e :
  counter_ok w -> front_complete w ->
  bufferItem (consumed w e)
  = bufferItem w - (syscall.SizeofInotifyEvent + front_Len w).
Proof.
  unfold counter_ok, front_complete. change BUFFER_CAP with 400.
  intros Hc Hf. pose proof (front_Len_range w) as HL. unfold is_u32 in HL.
  unfold consumed. cbn [bufferItem]. change syscall.SizeofInotifyEvent with 16 in *.
  apply u32_small. unfold is_u32. lia.
Qed.

Lemma u32_wrap z : - 2 ^ 32 <= z < 0 -> u32 z = z + 2 ^ 32.
Proof.
  intros Hz. unfold u32. symmetry.
  apply (Z.mod_unique z (2 ^ 32) (-1) (z + 2 ^ 32)); lia.
Qed.

Lemma consumed_bufferItem_split w e :
  counter_ok w -> ~ front_complete w ->
  syscall.SizeofInotifyEvent + front_Len w <= BUFFER_CAP ->
  bufferItem (consumed w e)
  = bufferItem w - (syscall.SizeofInotifyEvent + front_Len w) + 2 ^ 32.
Proof.
  unfold counter_ok, front_complete. change BUFFER_CAP with 400.
  intros Hc Hf Hfit. pose proof (front_Len_range w) as HL. unfold is_u32 in HL.
  unfold consumed. cbn [bufferItem]. change syscall.SizeofInotifyEvent with 16 in *.
  apply u32_wrap. lia.
Qed.

(** ** Whole records *)

Lemma stream_app recs1 recs2 :
  stream (recs1 ++ recs2) = stream recs1 ++ stream recs2.
Proof.
  induction recs1 as [|r recs1 IH]; [done|].
  cbn [stream app]. by rewrite IH, app_assoc.
Qed.

Lemma whole_prefix_fits queue : forall n,
  (length (stream (whole_prefix queue n)) <= n)%nat.
Proof.
  induction queue as [|r queue IH]; intros n; cbn [whole_prefix].
  - cbn. lia.
  - destruct (Nat.leb_spec (length (encode r)) n) as [Hle|Hgt]; [|cbn; lia].
    cbn [stream]. rewrite length_app.
    specialize (IH (n - length (encode r))%nat). lia.
Qed.

Lemma whole_prefix_wf queue : forall n,
  Forall wf_record queue -> Forall wf_record (whole_prefix queue n).
Proof.
  induction queue as [|r queue IH]; intros n Hwf; cbn [whole_prefix]; [done|].
  apply Forall_cons in Hwf as [Hr Hwf].
  destruct (Nat.leb (length (encode r)) n); [|constructor].
  constructor; [done|]. by apply IH.
Qed.

Lemma whole_counter_ok w : buffer_ok w -> whole w -> counter_ok w.
Proof.
  unfold buffer_ok, counter_ok. intros Hb (recs & rest & _ & Hbuf & Hn).
  rewrite Hbuf, length_app in Hb. lia.
Qed.

Lemma whole_front_complete w :
  whole w -> 0 < bufferItem w -> front_complete w.
Proof.
  intros (recs & rest & Hwf & Hbuf & Hn) Hpos. unfold front_complete.
  destruct recs as [|r recs]; [cbn in Hn; lia|].
  apply Forall_cons in Hwf as [Hr _].
  cbn [stream] in Hbuf, Hn. rewrite <- app_assoc in Hbuf.
  rewrite (front_Len_encode w r _ Hr Hbuf), <- length_encode.
  rewrite Hn, length_app. lia.
Qed.

Lemma whole_cleared w : whole (cleared w).
Proof.
  exists [], (eventBuffer (cleared w)). by repeat split.
Qed.

Lemma whole_forwardBuffer w :
  buffer_ok w -> whole w -> 0 < bufferItem w ->
  exists p w', forwardBuffer w = Ok (p, w') /\ buffer_ok w' /\ whole w'.
Proof.
  intros Hb Hw Hpos. pose proof (whole_counter_ok w Hb Hw) as Hc.
  destruct Hw as (recs & rest & Hwf & Hbuf & Hn).
  destruct recs as [|r recs]; [cbn in Hn; lia|].
  apply Forall_cons in Hwf as [Hr Hwf].
  cbn [stream] in Hbuf, Hn. rewrite <- app_assoc in Hbuf.
  rewrite length_app in Hn.
  destruct (watchMap w !! k_wd r) as [e|] eqn:He.
  - exists (Some (k_wd r)), (consumed w e).
    split; [exact (forwardBuffer_encode w r _ Hr Hbuf e Hb He)|].
    split; [exact (consumed_buffer_ok w r _ Hr Hbuf e Hb)|].
    destruct (consumed_buffer w r _ Hr Hbuf e) as [rest' Hbuf'].
    rewrite <- app_assoc in Hbuf'.
    exists recs, (rest ++ rest'). split; [done|]. split; [done|].
    apply (consumed_bufferItem w r _ Hr Hbuf); [|lia].
    unfold counter_ok in Hc. change BUFFER_CAP with 400 in Hc. lia.
  - exists None, (cleared w).
    rewrite <- (front_key_encode w r _ Hr Hbuf) in He.
    split; [by apply forwardBuffer_unresolved|].
    split; [by apply cleared_ok | apply whole_cleared].
Qed.

Lemma whole_read_tail_data w recs' :
  buffer_ok w -> whole w -> Forall wf_record recs' ->
  (length (stream recs') <= room w)%nat ->
  exists w' t,
    read_tail (ReadData (stream recs')) w = Ok (w', t)
    /\ buffer_ok w' /\ whole w'
    /\ bufferItem w' = bufferItem w + Z.of_nat (length (stream recs')).
Proof.
  intros Hb Hw Hwf' Hfit. pose proof (whole_counter_ok w Hb Hw) as Hc.
  destruct (read_tail_ok (ReadData (stream recs')) w Hb Hc)
    as (w' & t & Hrun & Hb' & Hc' & _ & Hkeep & Hcnt & Hdata).
  destruct Hw as (recs & rest & Hwf & Hbuf & Hn).
  unfold room, counter_ok in *. cbn zeta in Hcnt, Hdata.
  assert (Hmin : Z.min (Z.of_nat (length (stream recs'))) (BUFFER_CAP - bufferItem w)
                 = Z.of_nat (length (stream recs'))) by lia.
  rewrite Hmin in Hcnt, Hdata. rewrite Nat2Z.id, firstn_all in Hdata.
  exists w', t. split; [done|]. split; [done|]. split; [|done].
  exists (recs ++ recs'),
         (drop (length (stream recs'))
            (drop (Z.to_nat (bufferItem w)) (eventBuffer w'))).
  split; [by apply Forall_app|]. split.
  - set (D := drop (Z.to_nat (bufferItem w)) (eventBuffer w')) in *.
    assert (HD : D = stream recs' ++ drop (length (stream recs')) D).
    { transitivity (take (length (stream recs')) D
                    ++ drop (length (stream recs')) D).
      - symmetry. apply take_drop.
      - by rewrite Hdata. }
    rewrite stream_app, <- app_assoc, <- HD.
    rewrite <- (take_drop (Z.to_nat (bufferItem w)) (eventBuffer w')) at 1.
    fold D. f_equal. rewrite Hkeep, Hbuf, Hn, Nat2Z.id. apply take_app_length.
  - rewrite Hcnt, Hn, stream_app, length_app. lia.
Qed.

Lemma whole_read_tail_inotify w queue :
  buffer_ok w -> whole w -> Forall wf_record queue ->
  exists w' t,
    read_tail (inotify_read queue (room w)) w = Ok (w', t)
    /\ buffer_ok w' /\ whole w'.
Proof.
  intros Hb Hw Hwf. unfold inotify_read.
  pose proof (whole_prefix_fits queue (room w)) as Hfit.
  pose proof (whole_prefix_wf queue (room w) Hwf) as Hwf'.
  destruct (whole_prefix queue (room w)) as [|r recs'] eqn:Hpre.
  - pose proof (whole_counter_ok w Hb Hw) as Hc.
    destruct (read_tail_ok (ReadErr EINVAL) w Hb Hc)
      as (w' & t & Hrun & Hb' & _ & _ & _ & Heq).
    cbn in Heq. subst w'. eauto.
  - destruct (whole_read_tail_data w (r :: recs') Hb Hw Hwf' Hfit)
      as (w' & t & Hrun & Hb' & Hw' & _). eauto.
Qed.

Lemma whole_before_read w :
  buffer_ok w -> whole w ->
  buffer_ok (before_read w) /\ whole (before_read w)
  /\ forall r, epollWait_ready r w = read_tail r (before_read w).
Proof.
  intros Hb Hw. unfold before_read, epollWait_ready.
  destruct (Z.ltb_spec (u32 MAX_ITEM) (bufferItem w)) as [Hhigh|_]; [|done].
  change (u32 MAX_ITEM) with 320 in Hhigh.
  destruct (whole_forwardBuffer w Hb Hw) as (p & w1 & Hrun & Hb1 & Hw1); [lia|].
  by rewrite Hrun.
Qed.

(** C9 (amended): [forwardBuffer] subtracts header size plus name length
    from [bufferItem] and slices the name without comparing either with
    [bufferItem].  For a record that resolves, in a watcher whose counter
    is within the array: the call returns with the counter still within the
    array exactly when the first record is completely buffered, and then
    the counter is the exact difference; otherwise the call panics on the
    slice or returns with the counter wrapped around, above the capacity.
    The reactor keeps that precondition, since a read of an inotify
    descriptor stores whole records only: a buffer made of whole records
    has its counter within the array and, when not empty, a complete first
    record, and it is still made of whole records after [forwardBuffer],
    after the read, and after the reactor's critical section. *)
Theorem forwardBuffer_counter_precondition :
  (forall w e,
      buffer_ok w -> counter_ok w ->
      watchMap w !! front_key w = Some e ->
      ((exists p w', forwardBuffer w = Ok (p, w') /\ counter_ok w')
       <-> front_complete w)
      /\ (front_complete w ->
          forwardBuffer w = Ok (Some (front_key w), consumed w e)
          /\ bufferItem (consumed w e)
             = bufferItem w - (syscall.SizeofInotifyEvent + front_Len w))
      /\ (~ front_complete w ->
          forwardBuffer w = Panic
          \/ (forwardBuffer w = Ok (Some (front_key w), consumed w e)
              /\ bufferItem (consumed w e)
                 = bufferItem w - (syscall.SizeofInotifyEvent + front_Len w)
                   + 2 ^ 32
              /\ BUFFER_CAP < bufferItem (consumed w e))))
  /\ (forall w,
      buffer_ok w -> whole w ->
      counter_ok w
      /\ (0 < bufferItem w ->
          front_complete w
          /\ exists p w', forwardBuffer w = Ok (p, w')
                          /\ buffer_ok w' /\ whole w')
      /\ (forall queue, Forall wf_record queue ->
          (exists w' t,
              read_tail (inotify_read queue (room w)) w = Ok (w', t)
              /\ buffer_ok w' /\ whole w')
          /\ (exists w' t,
              epollWait_ready (inotify_read queue (room (before_read w))) w
              = Ok (w', t)
              /\ buffer_ok w' /\ whole w'))).
Proof.
  split.
  - intros w e Hb Hc He.
    assert (Hcomplete : front_complete w ->
              forwardBuffer w = Ok (Some (front_key w), consumed w e)
              /\ bufferItem (consumed w e)
                 = bufferItem w - (syscall.SizeofInotifyEvent + front_Len w)).
    { intros Hf. split; [|by apply consumed_bufferItem_complete].
      apply forwardBuffer_resolved; [done..|].
      unfold front_complete, counter_ok in *. lia. }
    assert (Hsplit : ~ front_complete w ->
              forwardBuffer w = Panic
              \/ (forwardBuffer w = Ok (Some (front_key w), consumed w e)
                  /\ bufferItem (consumed w e)
                     = bufferItem w - (syscall.SizeofInotifyEvent + front_Len w)
                       + 2 ^ 32
                  /\ BUFFER_CAP < bufferItem (consumed w e))).
    { intros Hf.
      destruct (Z_le_gt_dec (syscall.SizeofInotifyEvent + front_Len w) BUFFER_CAP)
        as [Hfit|Hover].
      - right. split; [by apply forwardBuffer_resolved|].
        rewrite consumed_bufferItem_split by done. split; [done|].
        pose proof (front_Len_range w) as HL.
        unfold is_u32, counter_ok, front_complete in *.
        change BUFFER_CAP with 400 in *. lia.
      - left. apply (forwardBuffer_overrun w e); [done..|lia]. }
    split; [|done]. split.
    + intros (p & w' & Hrun & Hc').
      destruct (decide (front_complete w)) as [|Hn]; [done|].
      destruct (Hsplit Hn) as [Hp|(Hr & _ & Hbig)].
      * rewrite Hp in Hrun. discriminate.
      * rewrite Hr in Hrun. injection Hrun as <- <-.
        unfold counter_ok in Hc'. lia.
    + intros Hf. destruct (Hcomplete Hf) as [Hrun Hn].
      eexists _, _. split; [exact Hrun|].
      unfold counter_ok, front_complete in *. rewrite Hn.
      pose proof (front_Len_range w) as HL. unfold is_u32 in HL.
      change syscall.SizeofInotifyEvent with 16 in *. lia.
  - intros w Hb Hw.
    split; [by apply whole_counter_ok|]. split.
    + intros Hpos. split; [by apply whole_front_complete|].
      by apply whole_forwardBuffer.
    + intros queue Hwf. split; [by apply whole_read_tail_inotify|].
      destruct (whole_before_read w Hb Hw) as (Hb1 & Hw1 & Heq).
      rewrite Heq. by apply whole_read_tail_inotify.
Qed.

Lemma forwardBuffer_counter_precondition_witness :
  ((exists p w', forwardBuffer Run.created = Ok (p, w') /\ counter_ok w')
   <-> front_complete Run.created)
  /\ counter_ok Run.created /\ front_complete Run.created.
Proof.
  destruct forwardBuffer_counter_precondition as [Hall Hwhole].
  split.
  - destruct (Hall Run.created Run.dir_entry) as [Hiff _].
    + reflexivity.
    + vm_compute. split; discriminate.
    + reflexivity.
    + exact Hiff.
  - destruct (Hwhole Run.created) as (Hc & Hfront & _).
    + reflexivity.
    + exists [Run.rec_create], (repeat x00 (Z.to_nat BUFFER_CAP - 32)).
      split; [repeat constructor; vm_compute; congruence|].
      split; reflexivity.
    + split; [exact Hc|]. apply Hfront. reflexivity.
Defined.

(** C9 (as stated, refuted): with thirteen 32-byte records pending (416
    bytes) and the buffer empty, the read of the inotify descriptor
    answers the twelve records that fit (384 bytes) and cuts none; the
    buffer then holds exactly those twelve records, twelve calls of
    [forwardBuffer] return twelve events and leave [bufferItem] at 0,
    within the array. *)
Lemma reactor_read_splits_no_record :
  exists w1 t evs w2,
    Forall wf_record (repeat Run.rec_create 13)
    /\ Z.of_nat (length Run.thirteen) = 416
    /\ inotify_read (repeat Run.rec_create 13) (room Run.watching)
       = ReadData (stream (repeat Run.rec_create 12))
    /\ epollWait_ready (inotify_read (repeat Run.rec_create 13)
                          (room (before_read Run.watching))) Run.watching
       = Ok (w1, t)
    /\ bufferItem w1 = 384
    /\ take 384 (eventBuffer w1) = stream (repeat Run.rec_create 12)
    /\ forward_n 12 w1 = Ok (evs, w2)
    /\ length (filter is_Some evs) = 12%nat
    /\ bufferItem w2 = 0
    /\ counter_ok w2.
Proof.
  eexists _, _, _, _.
  split; [repeat constructor; vm_compute; congruence|].
  split; [reflexivity|].
  split; [vm_compute; reflexivity|].
  split; [vm_compute; reflexivity|].
  split; [reflexivity|].
  split; [vm_compute; reflexivity|].
  split; [vm_compute; reflexivity|].
  split; [vm_compute; reflexivity|].
  split; [reflexivity|].
  vm_compute. split; discriminate.
Qed.

(** * What [forwardBuffer] leaves alone *)

Lemma static_front_event w e : static (front_event w e) = static e.
Proof. reflexivity. Qed.

Lemma forwardBuffer_writes w r w' :
  forwardBuffer w = Ok (r, w') ->
  inotifyFD w' = inotifyFD w /\ epollFD w' = epollFD w
  /\ wait w' = wait w /\ closes w' = closes w
  /\ (forall k, static <$> (watchMap w' !! k) = static <$> (watchMap w !! k))
  /\ (forall k, r <> Some k -> watchMap w' !! k = watchMap w !! k)
  /\ (r = None -> watchMap w' = watchMap w).
Proof.
  unfold forwardBuffer.
  destruct (watchMap w !! u32 (Wd (event_at0 (eventBuffer w)))) as [e|] eqn:He.
  - set (key := u32 (Wd (event_at0 (eventBuffer w)))) in *.
    assert (Hgen : forall s off src,
      let w1 := set_bufferItem (u32 (bufferItem w - off))
                  (set_eventBuffer (copy (eventBuffer w) src)
                     (set_watchMap
                        (<[key := set_FileName s
                                    (set_Mask (Mask_ (event_at0 (eventBuffer w))) e)]>
                           (watchMap w)) w)) in
      Ok (Some key, w1) = Ok (r, w') ->
      inotifyFD w' = inotifyFD w /\ epollFD w' = epollFD w
      /\ wait w' = wait w /\ closes w' = closes w
      /\ (forall k, static <$> (watchMap w' !! k) = static <$> (watchMap w !! k))
      /\ (forall k, r <> Some k -> watchMap w' !! k = watchMap w !! k)
      /\ (r = None -> watchMap w' = watchMap w)).
    { intros s off src w1 [= <- <-]. subst w1. cbn.
      repeat split; try done.
      - intros k. destruct (decide (key = k)) as [<-|Hne].
        + by rewrite lookup_insert_eq, He.
        + by rewrite lookup_insert_ne.
      - intros k Hk. rewrite lookup_insert_ne; [done|].
        intros Heq. apply Hk. by rewrite Heq. }
    destruct (0 <? Len (event_at0 (eventBuffer w))).
    + destruct (slice _ _ _); [|discriminate].
      destruct (slice_from _ _); [|discriminate]. apply Hgen.
    + destruct (slice_from _ _); [|discriminate]. apply Hgen.
  - destruct (slice_from _ _); [|discriminate].
    intros [= <- <-]. cbn. repeat split; done.
Qed.

(** A call writes [Mask] and [FileName] of the entry it returns and
    nothing else in the registry; descriptors and flags of the watcher are
    kept. *)
Theorem forwardBuffer_frame w r w' :
  forwardBuffer w = Ok (r, w') ->
  inotifyFD w' = inotifyFD w /\ epollFD w' = epollFD w
  /\ wait w' = wait w /\ closes w' = closes w
  /\ (forall k, static <$> (watchMap w' !! k) = static <$> (watchMap w !! k))
  /\ (forall k, r <> Some k -> watchMap w' !! k = watchMap w !! k)
  /\ (r = None -> watchMap w' = watchMap w).
Proof. apply forwardBuffer_writes. Qed.

Lemma forwardBuffer_frame_witness :
  exists w',
    forwardBuffer Run.created = Ok (Some 1, w')
    /\ static <$> (watchMap w' !! 1) = static <$> (watchMap Run.created !! 1).
Proof.
  exists (consumed Run.created Run.dir_entry).
  assert (H : forwardBuffer Run.created
              = Ok (Some 1, consumed Run.created Run.dir_entry)).
  { rewrite (forwardBuffer_resolved Run.created Run.dir_entry);
      [reflexivity | reflexivity | reflexivity | vm_compute; discriminate]. }
  split; [exact H|].
  apply (forwardBuffer_frame Run.created (Some 1) _ H).
Defined.

(** After a complete record was consumed, the bytes still counted as
    buffered are the old buffered bytes behind that record, in order. *)
Theorem forwardBuffer_keeps_rest w e :
  buffer_ok w -> counter_ok w ->
  watchMap w !! front_key w = Some e ->
  front_complete w ->
  exists w',
    forwardBuffer w = Ok (Some (front_key w), w')
    /\ buffer_ok w'
    /\ bufferItem w' = bufferItem w - (syscall.SizeofInotifyEvent + front_Len w)
    /\ take (Z.to_nat (bufferItem w')) (eventBuffer w')
       = drop (Z.to_nat (syscall.SizeofInotifyEvent + front_Len w))
           (take (Z.to_nat (bufferItem w)) (eventBuffer w)).
Proof.
  intros Hb Hc He Hf. exists (consumed w e).
  assert (Hfit : syscall.SizeofInotifyEvent + front_Len w <= BUFFER_CAP)
    by (unfold counter_ok, front_complete in *; lia).
  split; [by apply forwardBuffer_resolved|].
  split; [by apply consumed_ok|].
  rewrite (consumed_bufferItem_complete w e Hc Hf). split; [done|].
  unfold consumed, shift_left. cbn [eventBuffer].
  pose proof (front_Len_range w) as HL.
  unfold buffer_ok, counter_ok, front_complete, is_u32 in *.
  change syscall.SizeofInotifyEvent with 16 in *. change BUFFER_CAP with 400 in *.
  rewrite take_app_le by (rewrite length_drop; lia).
  rewrite take_drop_commute. do 2 f_equal. lia.
Qed.

Lemma forwardBuffer_keeps_rest_witness :
  exists w',
    forwardBuffer Run.created_deleted = Ok (Some (front_key Run.created_deleted), w')
    /\ buffer_ok w'
    /\ bufferItem w'
       = bufferItem Run.created_deleted
         - (syscall.SizeofInotifyEvent + front_Len Run.created_deleted)
    /\ take (Z.to_nat (bufferItem w')) (eventBuffer w')
       = drop (Z.to_nat (syscall.SizeofInotifyEvent + front_Len Run.created_deleted))
           (take (Z.to_nat (bufferItem Run.created_deleted))
              (eventBuffer Run.created_deleted)).
Proof.
  apply (forwardBuffer_keeps_rest Run.created_deleted Run.dir_entry).
  - reflexivity.
  - vm_compute. split; discriminate.
  - reflexivity.
  - vm_compute. discriminate.
Defined.

(** * What the reactor leaves alone *)

Lemma same_frame_refl w : same_frame w w.
Proof. by repeat split. Qed.

Lemma same_frame_trans w1 w2 w3 :
  same_frame w1 w2 -> same_frame w2 w3 -> same_frame w1 w3.
Proof.
  intros (a1 & b1 & c1 & d1 & e1) (a2 & b2 & c2 & d2 & e2).
  repeat split; try congruence.
  all: intros k; by rewrite e2, e1.
Qed.

Lemma forwardBuffer_same_frame w r w' :
  forwardBuffer w = Ok (r, w') -> same_frame w w'.
Proof.
  intros H. destruct (forwardBuffer_writes w r w' H) as (? & ? & ? & ? & ? & _).
  by repeat split.
Qed.

Lemma read_tail_keeps r w w' t :
  buffer_ok w -> is_u32 (bufferItem w) ->
  read_tail r w = Ok (w', t) ->
  buffer_ok w' /\ is_u32 (bufferItem w') /\ same_frame w w'
  /\ watchMap w' = watchMap w.
Proof.
  intros Hb Hu Hrun.
  destruct (Z_le_gt_dec (bufferItem w) BUFFER_CAP) as [Hle|Hgt].
  2:{ rewrite read_tail_overrun in Hrun by (done || lia). discriminate. }
  assert (Hc : counter_ok w) by (unfold counter_ok, is_u32 in *; lia).
  destruct (read_tail_ok r w Hb Hc) as (w2 & t2 & Hrd & Hb2 & Hc2 & _).
  rewrite Hrd in Hrun. injection Hrun as <- <-.
  split; [done|]. split.
  { unfold counter_ok, is_u32 in *. change BUFFER_CAP with 400 in *. lia. }
  revert Hrd. unfold read_tail.
  destruct (slice_from _ _); [|discriminate].
  destruct r; intros [= <-]; split; try done; apply same_frame_refl.
Qed.

Lemma epollWait_ready_keeps r w w' t :
  buffer_ok w -> is_u32 (bufferItem w) ->
  epollWait_ready r w = Ok (w', t) ->
  buffer_ok w' /\ is_u32 (bufferItem w') /\ same_frame w w'.
Proof.
  intros Hb Hu. unfold epollWait_ready.
  destruct (u32 MAX_ITEM <? bufferItem w).
  - destruct (forwardBuffer w) as [[p w1]|] eqn:Hfb; [|discriminate].
    destruct (forwardBuffer_ok w p w1 Hb) as [Hb1 Hu1];
      [unfold is_u32 in Hu; lia | done |].
    intros Hrd. destruct (read_tail_keeps r w1 w' t Hb1 Hu1 Hrd) as (? & ? & ? & _).
    split; [done|]. split; [done|].
    eapply same_frame_trans; [by eapply forwardBuffer_same_frame | done].
  - intros Hrd. destruct (read_tail_keeps r w w' t Hb Hu Hrd) as (? & ? & ? & _).
    done.
Qed.

Lemma epollWait_loop_keeps evs : forall w w' t,
  buffer_ok w -> is_u32 (bufferItem w) ->
  epollWait_loop evs w = Ok (w', t) ->
  buffer_ok w' /\ is_u32 (bufferItem w') /\ same_frame w w'.
Proof.
  induction evs as [|[e r] evs IH]; intros w w' t Hb Hu.
  - intros [= <- <-]. split; [done|]. split; [done|]. apply same_frame_refl.
  - cbn [epollWait_loop].
    assert (Hskip :
      match epollWait_loop evs w with
      | Ok (w2, t2) => Ok (w2, [] ++ t2)
      | Panic => Panic
      end = Ok (w', t) ->
      buffer_ok w' /\ is_u32 (bufferItem w') /\ same_frame w w').
    { destruct (epollWait_loop evs w) as [[w2 t2]|] eqn:Hrest; [|discriminate].
      intros [= <- <-]. by eapply IH. }
    destruct (_ || _); [|exact Hskip].
    destruct (negb _); [exact Hskip|].
    destruct (epollWait_ready r w) as [[w1 t1]|] eqn:Hr; [|discriminate].
    destruct (epollWait_ready_keeps r w w1 t1 Hb Hu Hr) as (Hb1 & Hu1 & Hf1).
    destruct (epollWait_loop evs w1) as [[w2 t2]|] eqn:Hrest; [|discriminate].
    intros [= <- <-].
    destruct (IH w1 w2 t2 Hb1 Hu1 Hrest) as (? & ? & ?).
    split; [done|]. split; [done|]. by eapply same_frame_trans.
Qed.

Lemma epollWait_keeps_all res w w' t again :
  buffer_ok w -> is_u32 (bufferItem w) ->
  epollWait res w = Ok (w', t, again) ->
  buffer_ok w' /\ is_u32 (bufferItem w')
  /\ inotifyFD w' = inotifyFD w /\ epollFD w' = epollFD w
  /\ wait w' = wait w
  /\ (forall k, static <$> (watchMap w' !! k) = static <$> (watchMap w !! k))
  /\ (closes w = true -> closes w' = true)
  /\ (closes w = false ->
      (closes w' = true
       <-> exists err, res = EpollFailed err /\ err <> Some Errno_.EINTR)
      /\ (closes w' = true -> t = [SysClose (inotifyFD w)])
      /\ (again = false <-> closes w' = true)).
Proof.
  intros Hb Hu. unfold epollWait. destruct res as [err|evs].
  - destruct (decide (err = Some Errno_.EINTR)) as [->|Hne].
    + intros [= <- <- <-].
      do 7 (split; [done|]). intros Hc. rewrite Hc. cbn. split; [|split].
      * split; [discriminate|]. by intros (err' & [= <-] & Hne).
      * discriminate.
      * split; discriminate.
    + intros [= <- <- <-]. cbn.
      do 7 (split; [done|]). intros Hc. split; [|split].
      * split; [|done]. intros _. by exists err.
      * done.
      * done.
  - destruct (epollWait_loop evs w) as [[w1 t1]|] eqn:Hloop; [|discriminate].
    intros [= <- <- <-].
    destruct (epollWait_loop_keeps evs w w1 t1 Hb Hu Hloop)
      as (? & ? & ? & ? & ? & Hcl & ?).
    do 6 (split; [done|]). split; [congruence|].
    intros Hc. rewrite Hcl, Hc. split; [|split].
    * split; [discriminate|]. by intros (err & [=] & _).
    * discriminate.
    * split; discriminate.
Qed.

(** One run of the reactor keeps the array length and a 32-bit counter,
    never touches the descriptors, the [wait] flag, the keys of the registry
    or the path, flags and removal mark of its entries, and never clears
    [closes].  On an open watcher it sets [closes] exactly on a failure of
    [EpollWait] other than [EINTR]; it then closes the inotify descriptor
    and is the only case in which it does not schedule itself again. *)
Theorem epollWait_keeps res w w' t again :
  buffer_ok w -> is_u32 (bufferItem w) ->
  epollWait res w = Ok (w', t, again) ->
  buffer_ok w' /\ is_u32 (bufferItem w')
  /\ inotifyFD w' = inotifyFD w /\ epollFD w' = epollFD w
  /\ wait w' = wait w
  /\ (forall k, static <$> (watchMap w' !! k) = static <$> (watchMap w !! k))
  /\ (closes w = true -> closes w' = true)
  /\ (closes w = false ->
      (closes w' = true
       <-> exists err, res = EpollFailed err /\ err <> Some Errno_.EINTR)
      /\ (closes w' = true -> t = [SysClose (inotifyFD w)])
      /\ (again = false <-> closes w' = true)).
Proof. apply epollWait_keeps_all. Qed.

Lemma epollWait_keeps_witness :
  let w' := set_closes true Run.created in
  buffer_ok w' /\ is_u32 (bufferItem w')
  /\ static <$> (watchMap w' !! 1) = static <$> (watchMap Run.created !! 1)
  /\ closes w' = true.
Proof.
  destruct (epollWait_keeps (EpollFailed None) Run.created
              (set_closes true Run.created) [SysClose 3] false)
    as (H1 & H2 & _ & _ & _ & H3 & _ & H4).
  - reflexivity.
  - vm_compute. split; [discriminate | reflexivity].
  - reflexivity.
  - split; [exact H1|]. split; [exact H2|]. split; [apply H3|].
    apply H4; reflexivity.
Defined.

(** Ready events without a condition bit, or on another descriptor, change
    nothing and cause no system call. *)
Theorem epollWait_passes_over evs w :
  Forall (fun er => passed_over w er.1) evs ->
  epollWait_loop evs w = Ok (w, [])
  /\ epollWait (EpollReady evs) w = Ok (w, [], true).
Proof.
  intros Hall.
  assert (Hloop : epollWait_loop evs w = Ok (w, [])).
  { induction Hall as [|[e r] evs He _ IH]; [done|].
    cbn [epollWait_loop]. cbn [fst] in He.
    destruct He as [(H1 & H2 & H3)|Hfd].
    - rewrite H1, H2, H3. cbn. by rewrite IH.
    - destruct (_ || _); [|by rewrite IH].
      destruct (Z.eqb_spec (Fd e) (int32_of_bits (u32 (inotifyFD w)))); [done|].
      cbn. by rewrite IH. }
  split; [done|]. unfold epollWait. by rewrite Hloop.
Qed.

Lemma epollWait_passes_over_witness :
  epollWait_loop [(mkEpollEvent EPOLLIN 9, ReadData []);
                  (mkEpollEvent 4 3, ReadData [])] Run.created
  = Ok (Run.created, [])
  /\ epollWait (EpollReady [(mkEpollEvent EPOLLIN 9, ReadData []);
                            (mkEpollEvent 4 3, ReadData [])]) Run.created
     = Ok (Run.created, [], true).
Proof.
  apply (epollWait_passes_over
           [(mkEpollEvent EPOLLIN 9, ReadData []);
            (mkEpollEvent 4 3, ReadData [])] Run.created).
  constructor; [right; vm_compute; discriminate|].
  constructor; [left; repeat split|]. constructor.
Defined.

(** * Bits *)

Lemma land_lor_absorb a b : Z.land (Z.lor a b) a = a.
Proof.
  apply Z.bits_inj'. intros n _. rewrite Z.land_spec, Z.lor_spec.
  by destruct (Z.testbit a n), (Z.testbit b n).
Qed.

Lemma has_bits_lor_l a b : has_bits (Z.lor a b) a = true.
Proof. unfold has_bits. rewrite land_lor_absorb. apply Z.eqb_refl. Qed.

Lemma has_bits_lor_r a b : has_bits (Z.lor a b) b = true.
Proof. rewrite Z.lor_comm. apply has_bits_lor_l. Qed.

Lemma has_bits_trans a b c :
  has_bits a b = true -> has_bits b c = true -> has_bits a c = true.
Proof.
  unfold has_bits. intros H1%Z.eqb_eq H2%Z.eqb_eq. apply Z.eqb_eq.
  by rewrite <- H2 at 1; rewrite Z.land_assoc, H1.
Qed.

Lemma has_bits_disjoint m extra b :
  Z.land extra b = 0 -> has_bits (Z.lor m extra) b = has_bits m b.
Proof.
  intros H. unfold has_bits.
  by rewrite Z.land_lor_distr_l, H, Z.lor_0_r.
Qed.

(** * More on [GetEventName] *)

(** The three things a returning call can have done. *)
Lemma GetEventName_outcomes ws w l w' t :
  GetEventName ws w = Ok (l, w', t) ->
  (w' = w /\ t = [])
  \/ (exists e, watch ws = true /\ watchMap w !! watchId ws = Some e
        /\ w' = set_watchMap (<[watchId ws := set_remove true e]> (watchMap w)) w
        /\ ((t = [] /\ l = "DELETE_SELF"%string)
            \/ (t = [SysInotifyRmWatch (inotifyFD w) (watchId ws)]
                /\ l = "MOVE_SELF"%string)))
  \/ (exists e, watch ws = true /\ watchMap w !! watchId ws = Some e
        /\ remove e = true
        /\ w' = set_watchMap (delete (watchId ws) (watchMap w)) w
        /\ t = [] /\ l = "REMOVE"%string).
Proof.
  unfold GetEventName, store_remove.
  repeat (case_bits; [| try (intros [= <- <- <-]; by left)]);
    try (intros [= <- <- <-]; by left).
  all: destruct (watch ws) eqn:Hw; [|intros [= <- <- <-]; by left].
  all: destruct (watchMap w !! watchId ws) as [e|] eqn:He; [|discriminate].
  - intros [= <- <- <-]. right; left. exists e. repeat split; auto.
  - intros [= <- <- <-]. right; left. exists e. repeat split; auto.
  - destruct (remove e) eqn:Hr; intros [= <- <- <-]; [|by left].
    right; right. exists e. by repeat split.
Qed.

(** Classifying an event touches nothing but the registry entry under the
    event's own identifier, where it can only set the removal mark or
    delete the entry; it adds no entry, issues at most the one
    [InotifyRmWatch] of a self-move, and with a nil back-reference it
    changes nothing at all and cannot panic. *)
Theorem GetEventName_frame ws w :
  (watch ws = false ->
     GetEventName ws w = Ok (spec_label (Mask ws), w, []))
  /\ (forall l w' t,
        GetEventName ws w = Ok (l, w', t) ->
        only_registry w w'
        /\ (forall k, k <> watchId ws -> watchMap w' !! k = watchMap w !! k)
        /\ (forall e', watchMap w' !! watchId ws = Some e' ->
              exists e, watchMap w !! watchId ws = Some e
                        /\ (e' = e \/ e' = set_remove true e))
        /\ (t = []
            \/ (t = [SysInotifyRmWatch (inotifyFD w) (watchId ws)]
                /\ l = "MOVE_SELF"%string))).
Proof.
  split.
  - intros Hw. unfold GetEventName, spec_label, priority.
    cbn [first_match]. rewrite Hw.
    repeat (case_bits; [reflexivity|]). reflexivity.
  - intros l w' t Hrun.
    destruct (GetEventName_outcomes ws w _ _ _ Hrun)
      as [[-> ->]|[(e & Hw & He & -> & Ht)|(e & Hw & He & Hr & -> & -> & ->)]].
    + split; [by repeat split|]. split; [done|]. split; [eauto|]. by left.
    + split; [by repeat split|]. cbn [watchMap set_watchMap]. split.
      { intros k Hk. by rewrite lookup_insert_ne. }
      split.
      { intros e'. rewrite lookup_insert_eq. intros [= <-]. eauto. }
      destruct Ht as [[-> _]|[-> ->]]; auto.
    + split; [by repeat split|]. cbn [watchMap set_watchMap]. split.
      { intros k Hk. by rewrite lookup_delete_ne. }
      split; [|by left].
      intros e'. by rewrite lookup_delete_eq.
Qed.

Lemma GetEventName_delete_self ws w e :
  watch ws = true ->
  has_bits (Mask ws) IN_DELETE_SELF = true ->
  watchMap w !! watchId ws = Some e ->
  GetEventName ws w
  = Ok ("DELETE_SELF"%string,
        set_watchMap (<[watchId ws := set_remove true e]> (watchMap w)) w, []).
Proof.
  intros Hw H1 He. unfold GetEventName, store_remove. by rewrite H1, Hw, He.
Qed.

(** A self-delete event marks its entry pending-removal without asking the
    kernel for anything (the case has no [InotifyRmWatch]); the
    terminal-ignored event of the identifier then deletes the entry. *)
Theorem GetEventName_delete_self_then_ignored w id e del ig :
  watchMap w !! id = Some e ->
  watch del = true -> watchId del = id ->
  has_bits (Mask del) IN_DELETE_SELF = true ->
  watch ig = true -> watchId ig = id ->
  spec_label (Mask ig) = "REMOVE"%string ->
  exists w1 w2,
    GetEventName del w = Ok ("DELETE_SELF"%string, w1, [])
    /\ watchMap w1 !! id = Some (set_remove true e)
    /\ GetEventName ig w1 = Ok ("REMOVE"%string, w2, [])
    /\ watchMap w2 !! id = None
    /\ (forall k, k <> id -> watchMap w2 !! k = watchMap w !! k).
Proof.
  intros He Hd <- Hb Hig Hid Hl.
  set (w1 := set_watchMap (<[watchId del := set_remove true e]> (watchMap w)) w).
  exists w1, (set_watchMap (delete (watchId del) (watchMap w1)) w1).
  split; [by apply GetEventName_delete_self|].
  split; [apply lookup_insert_eq|].
  split.
  { rewrite (GetEventName_ignored ig w1 (set_remove true e)); try done.
    - by rewrite Hid.
    - rewrite Hid. apply lookup_insert_eq. }
  split; [apply lookup_delete_eq|].
  intros k Hk. cbn. by rewrite lookup_delete_ne, lookup_insert_ne.
Qed.

Lemma GetEventName_delete_self_then_ignored_witness :
  exists w1 w2,
    GetEventName (set_Mask IN_DELETE_SELF Run.dir_entry) Run.watching
    = Ok ("DELETE_SELF"%string, w1, [])
    /\ watchMap w1 !! 1 = Some (set_remove true Run.dir_entry)
    /\ GetEventName (set_Mask syscall.IN_IGNORED Run.dir_entry) w1
       = Ok ("REMOVE"%string, w2, [])
    /\ watchMap w2 !! 1 = None
    /\ (forall k, k <> 1 -> watchMap w2 !! k = watchMap Run.watching !! k).
Proof.
  apply (GetEventName_delete_self_then_ignored Run.watching 1 Run.dir_entry
           (set_Mask IN_DELETE_SELF Run.dir_entry)
           (set_Mask syscall.IN_IGNORED Run.dir_entry));
    reflexivity.
Defined.

(** Bits of the mask that no case of the switch tests (the kernel's
    [IN_ISDIR], say) have no influence on what [GetEventName] does. *)
Theorem GetEventName_ignores_other_bits extra mask ws w :
  Forall (fun bl => Z.land extra bl.1 = 0) priority ->
  GetEventName (set_Mask (Z.lor mask extra) ws) w
  = GetEventName (set_Mask mask ws) w.
Proof.
  unfold priority. intros Hall.
  repeat match type of Hall with
         | Forall _ (_ :: _) =>
             let H := fresh "Hb" in
             apply Forall_cons in Hall as [H Hall]; cbn [fst] in H
         end.
  unfold GetEventName. cbn [Mask set_Mask watch watchId].
  by rewrite !has_bits_disjoint.
Qed.

Lemma GetEventName_ignores_other_bits_witness :
  GetEventName (set_Mask (Z.lor IN_CREATE 0x40000000) Run.dir_entry) Run.watching
  = GetEventName (set_Mask IN_CREATE Run.dir_entry) Run.watching.
Proof.
  apply (GetEventName_ignores_other_bits 0x40000000 IN_CREATE
           Run.dir_entry Run.watching).
  repeat constructor.
Defined.

(** The labels [CLOSE] and [MOVE] are returned only for a mask that has
    both close bits, respectively both move bits: an event with one of the
    two bits gets the label of that bit, never the one of the pair. *)
Theorem GetEventName_pair_labels ws w l w' t :
  GetEventName ws w = Ok (l, w', t) ->
  (l = "CLOSE"%string ->
     has_bits (Mask ws) IN_CLOSE_WRITE = true
     /\ has_bits (Mask ws) IN_CLOSE_NOWRITE = true)
  /\ (l = "MOVE"%string ->
     has_bits (Mask ws) IN_MOVED_FROM = true
     /\ has_bits (Mask ws) IN_MOVED_TO = true)
  /\ (has_bits (Mask ws) IN_CLOSE = false -> l <> "CLOSE"%string)
  /\ (has_bits (Mask ws) IN_MOVE = false -> l <> "MOVE"%string).
Proof.
  intros Hrun. apply GetEventName_label in Hrun. subst l.
  assert (Hc : spec_label (Mask ws) = "CLOSE"%string ->
               has_bits (Mask ws) IN_CLOSE = true).
  { unfold spec_label, priority. cbn [first_match].
    repeat (case_bits; [try discriminate; done|]). discriminate. }
  assert (Hm : spec_label (Mask ws) = "MOVE"%string ->
               has_bits (Mask ws) IN_MOVE = true).
  { unfold spec_label, priority. cbn [first_match].
    repeat (case_bits; [try discriminate; done|]). discriminate. }
  split; [|split; [|split]].
  - intros H%Hc. split; (eapply has_bits_trans; [exact H | reflexivity]).
  - intros H%Hm. split; (eapply has_bits_trans; [exact H | reflexivity]).
  - intros Hn H%Hc. congruence.
  - intros Hn H%Hm. congruence.
Qed.

Lemma GetEventName_pair_labels_witness :
  let ws := set_Mask IN_CLOSE_WRITE Run.dir_entry in
  ("CLOSE_WRITE"%string = "CLOSE"%string ->
     has_bits (Mask ws) IN_CLOSE_WRITE = true
     /\ has_bits (Mask ws) IN_CLOSE_NOWRITE = true)
  /\ ("CLOSE_WRITE"%string = "MOVE"%string ->
     has_bits (Mask ws) IN_MOVED_FROM = true
     /\ has_bits (Mask ws) IN_MOVED_TO = true)
  /\ (has_bits (Mask ws) IN_CLOSE = false -> "CLOSE_WRITE"%string <> "CLOSE"%string)
  /\ (has_bits (Mask ws) IN_MOVE = false -> "CLOSE_WRITE"%string <> "MOVE"%string).
Proof.
  apply (GetEventName_pair_labels (set_Mask IN_CLOSE_WRITE Run.dir_entry)
           Run.watching "CLOSE_WRITE" Run.watching []).
  reflexivity.
Defined.

(** * More on [AddWatch] *)

Lemma register_inv wd p info fl w w' :
  register wd p info fl w = Ok w' ->
  exists e',
    w' = set_watchMap (<[u32 wd := e']> (watchMap w)) w
    /\ ((exists e, watchMap w !! u32 wd = Some e
                   /\ e' = set_flags (Z.lor (flags e) fl) e)
        \/ (exists dir, watchMap w !! u32 wd = None /\ info = Some dir
              /\ e' = mkWatchSingle (stored_path p dir) dir (u32 wd) fl
                        true false "" 0)).
Proof.
  destruct (watchMap w !! u32 wd) as [e|] eqn:He.
  - rewrite (register_present _ _ _ _ _ e He). intros [= <-].
    eexists. split; [reflexivity|]. left. eauto.
  - destruct info as [dir|].
    + rewrite register_absent by done. intros [= <-].
      eexists. split; [reflexivity|]. right. eauto.
    + unfold register. by rewrite He.
Qed.

Lemma AddWatch_of_inv v env p fl w err w' t :
  AddWatch_of v env p fl w = Ok (err, w', t) ->
  (is_Some err /\ w' = w
   /\ (t = []
       \/ exists absP,
            t = [SysInotifyAddWatch (inotifyFD w) absP (kernel_mask fl)]
            /\ err = (add_result env).2))
  \/ (err = None /\ (add_result env).2 = None
      /\ exists absP info,
           register (add_result env).1 absP info fl w = Ok w'
           /\ t = [SysInotifyAddWatch (inotifyFD w) absP (kernel_mask fl)]).
Proof.
  destruct v; cbn [AddWatch_of]; unfold AddWatch, AddWatch_lazy.
  - destruct (abs_result env) as [p' [e|]].
    { intros [= <- <- <-]. left. split; [eauto|]. split; [done|]. by left. }
    destruct (stat_result env) as [dir|].
    2:{ intros [= <- <- <-]. left. split; [eauto|]. split; [done|]. by left. }
    destruct (add_result env) as [wd [e|]].
    { intros [= <- <- <-]. left. split; [eauto|]. split; [done|]. right. eauto. }
    destruct (register _ _ _ _ _) as [w1|] eqn:Hr; [|discriminate].
    intros [= <- <- <-]. right. split; [done|]. split; [done|]. eauto.
  - destruct (add_result env) as [wd [e|]].
    { intros [= <- <- <-]. left. split; [eauto|]. split; [done|]. right. eauto. }
    destruct (register _ _ _ _ _) as [w1|] eqn:Hr; [|discriminate].
    intros [= <- <- <-]. right. split; [done|]. split; [done|]. eauto.
Qed.

(** Whatever [AddWatch] returns, in either variant: only the registry entry
    under the answered watch descriptor can differ; of the calls of package
    [syscall], the only one made is [InotifyAddWatch], at most once, on the
    inotify descriptor and with a mask that has every requested bit together
    with [IN_DONT_FOLLOW] and [IN_MASK_ADD]; and an error leaves the whole
    watcher as it was.  ([filepath.Abs] and [os.Stat] do not touch the
    watcher or its descriptors and are not part of the trace; their answers
    are inputs.) *)
Theorem AddWatch_effects v env p fl w err w' t :
  AddWatch_of v env p fl w = Ok (err, w', t) ->
  only_registry w w'
  /\ (forall k, k <> u32 (add_result env).1 ->
                watchMap w' !! k = watchMap w !! k)
  /\ (is_Some err -> w' = w)
  /\ (t = []
      \/ exists absP m,
           t = [SysInotifyAddWatch (inotifyFD w) absP m]
           /\ has_bits m fl = true
           /\ has_bits m syscall.IN_DONT_FOLLOW = true
           /\ has_bits m syscall.IN_MASK_ADD = true).
Proof.
  intros Hrun.
  assert (Hmask : has_bits (kernel_mask fl) fl = true
                  /\ has_bits (kernel_mask fl) syscall.IN_DONT_FOLLOW = true
                  /\ has_bits (kernel_mask fl) syscall.IN_MASK_ADD = true).
  { unfold kernel_mask. split; [|split].
    - rewrite <- Z.lor_assoc. apply has_bits_lor_l.
    - eapply has_bits_trans; [apply has_bits_lor_l | apply has_bits_lor_r].
    - apply has_bits_lor_r. }
  destruct (AddWatch_of_inv _ _ _ _ _ _ _ _ Hrun)
    as [(Herr & -> & Ht)|(-> & _ & absP & info & Hreg & ->)].
  - split; [by repeat split|]. split; [done|]. split; [done|].
    destruct Ht as [->|(absP & -> & _)]; [by left|]. right. eauto.
  - destruct (register_inv _ _ _ _ _ _ Hreg) as (e' & -> & _).
    split; [by repeat split|]. split.
    { intros k Hk. cbn. by rewrite lookup_insert_ne. }
    split; [by intros [? [=]]|]. right. eauto.
Qed.

Lemma AddWatch_effects_witness :
  only_registry Run.fresh Run.watching
  /\ (forall k, k <> u32 (add_result Run.add_env).1 ->
                watchMap Run.watching !! k = watchMap Run.fresh !! k)
  /\ (is_Some (@None error) -> Run.watching = Run.fresh)
  /\ ([SysInotifyAddWatch 3 "/tmp/d" (kernel_mask Run.add_flags)] = []
      \/ exists absP m,
           [SysInotifyAddWatch 3 "/tmp/d" (kernel_mask Run.add_flags)]
           = [SysInotifyAddWatch (inotifyFD Run.fresh) absP m]
           /\ has_bits m Run.add_flags = true
           /\ has_bits m syscall.IN_DONT_FOLLOW = true
           /\ has_bits m syscall.IN_MASK_ADD = true).
Proof.
  apply (AddWatch_effects Eager Run.add_env "/tmp/d" Run.add_flags Run.fresh).
  exact Run_watching.
Defined.

(** The eager [AddWatch] always returns; the lazy one panics exactly when
    the kernel accepts the watch under a descriptor the registry does not
    hold and [os.Stat] then yields no [info]. *)
Theorem AddWatch_panics env p fl w :
  (exists r, AddWatch env p fl w = Ok r)
  /\ (AddWatch_lazy env p fl w = Panic
      <-> (add_result env).2 = None
          /\ watchMap w !! u32 (add_result env).1 = None
          /\ stat_result env = None).
Proof.
  split.
  - unfold AddWatch.
    destruct (abs_result env) as [p' [e|]]; [eauto|].
    destruct (stat_result env) as [dir|]; [|eauto].
    destruct (add_result env) as [wd [e|]]; [eauto|].
    destruct (watchMap w !! u32 wd) as [e|] eqn:He.
    + rewrite (register_present _ _ _ _ _ e He). eauto.
    + rewrite register_absent by done. eauto.
  - unfold AddWatch_lazy.
    destruct (add_result env) as [wd [e|]]; cbn [fst snd].
    { split; [discriminate|]. by intros ([=] & _). }
    destruct (watchMap w !! u32 wd) as [e|] eqn:He.
    { rewrite (register_present _ _ _ _ _ e He).
      split; [discriminate|]. by intros (_ & [=] & _). }
    destruct (stat_result env) as [dir|].
    + rewrite register_absent by done.
      split; [discriminate|]. by intros (_ & _ & [=]).
    + unfold register. rewrite He. done.
Qed.

(** A successful call for a descriptor the registry already holds changes
    only [flags] of that entry: the stored path and kind, the removal mark
    and the last event stay, whatever path the call names, and the new
    flags contain the old ones and the requested ones. *)
Theorem AddWatch_again v env p fl w e w' t :
  watchMap w !! u32 (add_result env).1 = Some e ->
  AddWatch_of v env p fl w = Ok (None, w', t) ->
  exists e',
    watchMap w' !! u32 (add_result env).1 = Some e'
    /\ e' = set_flags (Z.lor (flags e) fl) e
    /\ path e' = path e /\ isDir e' = isDir e /\ remove e' = remove e
    /\ Mask e' = Mask e /\ FileName e' = FileName e
    /\ has_bits (flags e') (flags e) = true
    /\ has_bits (flags e') fl = true.
Proof.
  intros He Hrun.
  destruct (AddWatch_of_inv _ _ _ _ _ _ _ _ Hrun)
    as [([? [=]] & _)|(_ & _ & absP & info & Hreg & _)].
  rewrite (register_present _ _ _ _ _ e He) in Hreg. injection Hreg as <-.
  eexists. split; [cbn; apply lookup_insert_eq|].
  split; [done|]. cbn. repeat split; try done.
  - apply has_bits_lor_l.
  - apply has_bits_lor_r.
Qed.

Lemma AddWatch_again_witness :
  exists w' t,
    AddWatch Run.add_env "elsewhere" IN_MODIFY Run.watching = Ok (None, w', t)
    /\ exists e',
         watchMap w' !! 1 = Some e'
         /\ path e' = "/tmp/d/"%string
         /\ has_bits (flags e') IN_MODIFY = true.
Proof.
  eexists _, _. split; [reflexivity|].
  destruct (AddWatch_again Eager Run.add_env "elsewhere" IN_MODIFY Run.watching
              Run.dir_entry _ _ eq_refl eq_refl)
    as (e' & He' & _ & Hp & _ & _ & _ & _ & _ & Hf).
  exists e'. split; [exact He'|]. split; [exact Hp | exact Hf].
Defined.

(** * [NewWatcher] *)

Lemma NewWatcher_outcomes_aux env :
  match NewWatcher env with
  | (Some w, err, t) =>
      err = None /\ t = []
      /\ inotify_init1 env <> -1 /\ epoll_create1 env <> -1
      /\ epoll_ctl env = None
      /\ inotifyFD w = inotify_init1 env /\ epollFD w = epoll_create1 env
      /\ watchMap w = ∅ /\ bufferItem w = 0 /\ buffer_ok w
      /\ wait w = false /\ closes w = false
      /\ eventBuffer w = repeat x00 (Z.to_nat BUFFER_CAP)
  | (None, err, t) =>
      is_Some err /\ t = map SysClose (opened env)
      /\ (inotify_init1 env = -1 \/ epoll_create1 env = -1
          \/ is_Some (epoll_ctl env))
  end.
Proof.
  unfold NewWatcher, opened.
  destruct (Z.eqb_spec (inotify_init1 env) (-1)) as [H1|H1].
  { split; [eauto|]. split; [done|]. by left. }
  destruct (Z.eqb_spec (epoll_create1 env) (-1)) as [H2|H2].
  { split; [eauto|]. split; [done|]. right; by left. }
  destruct (epoll_ctl env) as [err|] eqn:H3.
  { split; [eauto|]. split; [done|]. right; right; eauto. }
  by repeat split.
Qed.


(** [NewWatcher] returns a watcher exactly when the three system calls
    succeed: it then has an empty registry, a buffer of the declared
    length that is all zero bytes with none counted as buffered, and both
    flags clear, and nothing was closed.  Otherwise it
    returns an error and no watcher, having closed every descriptor it had
    opened, each once. *)
Theorem NewWatcher_outcomes env :
  match NewWatcher env with
  | (Some w, err, t) =>
      err = None /\ t = []
      /\ inotify_init1 env <> -1 /\ epoll_create1 env <> -1
      /\ epoll_ctl env = None
      /\ inotifyFD w = inotify_init1 env /\ epollFD w = epoll_create1 env
      /\ watchMap w = ∅ /\ bufferItem w = 0 /\ buffer_ok w
      /\ wait w = false /\ closes w = false
      /\ eventBuffer w = repeat x00 (Z.to_nat BUFFER_CAP)
  | (None, err, t) =>
      is_Some err /\ t = map SysClose (opened env)
      /\ (inotify_init1 env = -1 \/ epoll_create1 env = -1
          \/ is_Some (epoll_ctl env))
  end.
Proof. apply NewWatcher_outcomes_aux. Qed.

(** * The invariant of the reachable watchers *)

Lemma registry_ok_static w w' :
  (forall k, static <$> (watchMap w' !! k) = static <$> (watchMap w !! k)) ->
  registry_ok w -> registry_ok w'.
Proof.
  intros Hst Hok k e' He'. specialize (Hst k). rewrite He' in Hst.
  destruct (watchMap w !! k) as [e|] eqn:He; [|discriminate].
  injection Hst as Hst. destruct (Hok k e He) as [? ?].
  unfold static in Hst. split; congruence.
Qed.

Lemma registry_ok_register wd p info fl w w' :
  registry_ok w -> register wd p info fl w = Ok w' -> registry_ok w'.
Proof.
  intros Hok Hreg.
  destruct (register_inv _ _ _ _ _ _ Hreg)
    as (e' & -> & [(e & He & ->)|(dir & _ & _ & ->)]);
    intros k e1; cbn [watchMap set_watchMap];
    (destruct (decide (u32 wd = k)) as [<-|Hne];
     [rewrite lookup_insert_eq; intros [= <-]
     |rewrite lookup_insert_ne by done; apply Hok]).
  - by destruct (Hok _ _ He).
  - done.
Qed.

Lemma registry_ok_GetEventName ev w l w' t :
  registry_ok w -> GetEventName ev w = Ok (l, w', t) -> registry_ok w'.
Proof.
  intros Hok Hrun.
  destruct (GetEventName_outcomes ev w _ _ _ Hrun)
    as [[-> ->]|[(e & Hw & He & -> & Ht)|(e & Hw & He & Hr & -> & -> & ->)]];
    [done| |]; intros k e1; cbn [watchMap set_watchMap].
  - destruct (decide (watchId ev = k)) as [<-|Hne].
    + rewrite lookup_insert_eq. intros [= <-]. by destruct (Hok _ _ He).
    + rewrite lookup_insert_ne by done. apply Hok.
  - destruct (decide (watchId ev = k)) as [<-|Hne].
    + by rewrite lookup_delete_eq.
    + rewrite lookup_delete_ne by done. apply Hok.
Qed.

Lemma invariant_step env w w' :
  invariant env w -> step w w' -> invariant env w'.
Proof.
  intros (Hb & Hu & Hok & Hi & Hi' & He & He') Hstep.
  destruct Hstep as [v env' p fl w err w' t Hrun|w r w' Hrun|b w
                    |res w w' t b Hrun|ev w l w' t Hrun|w].
  - destruct (AddWatch_of_inv _ _ _ _ _ _ _ _ Hrun)
      as [(_ & -> & _)|(_ & _ & absP & info & Hreg & _)]; [done|].
    pose proof (registry_ok_register _ _ _ _ _ _ Hok Hreg) as Hok'.
    destruct (register_inv _ _ _ _ _ _ Hreg) as (e' & -> & _).
    split; [exact Hb|]. split; [exact Hu|]. split; [exact Hok'|].
    by repeat split.
  - destruct (forwardBuffer_ok w r w' Hb) as [Hb' Hu'];
      [unfold is_u32 in Hu; lia | done |].
    destruct (forwardBuffer_writes w r w' Hrun) as (Ha & Hb2 & _ & _ & Hst & _).
    split; [done|]. split; [done|].
    split; [by eapply registry_ok_static|]. rewrite Ha, Hb2. done.
  - split; [exact Hb|]. split; [exact Hu|]. split; [exact Hok|].
    by repeat split.
  - destruct (epollWait_keeps_all _ _ _ _ _ Hb Hu Hrun)
      as (Hb' & Hu' & Ha & Hb2 & _ & Hst & _).
    split; [done|]. split; [done|].
    split; [by eapply registry_ok_static|]. rewrite Ha, Hb2. done.
  - pose proof (registry_ok_GetEventName _ _ _ _ _ Hok Hrun) as Hok'.
    destruct (GetEventName_outcomes ev w _ _ _ Hrun)
      as [[-> ->]|[(e & _ & _ & -> & _)|(e & _ & _ & _ & -> & _)]];
      (split; [exact Hb|]; split; [exact Hu|]; split; [exact Hok'|];
       by repeat split).
  - split; [exact Hb|]. split; [exact Hu|]. split; [exact Hok|].
    by repeat split.
Qed.

Lemma invariant_new env w t :
  NewWatcher env = (Some w, None, t) -> invariant env w.
Proof.
  intros Hnew. pose proof (NewWatcher_outcomes_aux env) as H.
  rewrite Hnew in H.
  destruct H as (_ & _ & H1 & H2 & _ & Hi & He & Hm & H0 & Hb & _).
  split; [done|]. split; [rewrite H0; done|].
  split; [intros k e; by rewrite Hm, lookup_empty|].
  rewrite Hi, He. done.
Qed.

Lemma reachable_invariant_aux env w :
  reachable env w -> invariant env w.
Proof.
  induction 1 as [w t Hnew|w w' _ IH Hstep].
  - by eapply invariant_new.
  - by eapply invariant_step.
Qed.

(** Whatever sequence of calls and reactor runs follows [NewWatcher],
    as long as none panics: the buffer keeps its length, [bufferItem] is a
    32-bit value, every registry entry sits under its own [watchId] with a
    non-nil back-reference, and both descriptors keep the values
    [NewWatcher] stored, never [-1]. *)
Theorem reachable_invariant env w :
  reachable env w -> invariant env w.
Proof. apply reachable_invariant_aux. Qed.

Lemma reachable_invariant_witness : invariant Run.env0 Run.created.
Proof.
  apply reachable_invariant.
  eapply reach_step.
  - eapply reach_step.
    + eapply (reach_new Run.env0 Run.fresh []). reflexivity.
    + eapply (step_AddWatch Eager). exact Run_watching.
  - eapply (step_epollWait (EpollReady [(mkEpollEvent EPOLLIN 3, ReadData (encode Run.rec_create))])).
    vm_compute. reflexivity.
Defined.

(** * More on [WaitEvent] *)

Lemma WaitEvent_inv wake w ev err w' :
  WaitEvent wake w = Ok (ev, err, w') ->
  (wait_phase wake w = None /\ ev = WatchSingle_zero
   /\ err = Some ErrClosed /\ w' = w)
  \/ (wait_phase wake w = Some w'
      /\ bufferItem w' < syscall.SizeofInotifyEvent
      /\ ev = WatchSingle_zero /\ err = Some ErrCrossLines)
  \/ (exists w1, wait_phase wake w = Some w1
        /\ syscall.SizeofInotifyEvent <= bufferItem w1
        /\ forwardBuffer w1 = Ok (None, w')
        /\ ev = WatchSingle_zero /\ err = Some ErrDeletedOrRenamed)
  \/ (exists w1 p, wait_phase wake w = Some w1
        /\ syscall.SizeofInotifyEvent <= bufferItem w1
        /\ forwardBuffer w1 = Ok (Some p, w')
        /\ deref w' p = Some ev /\ err = None).
Proof.
  unfold WaitEvent. destruct (wait_phase wake w) as [w1|].
  2:{ intros [= <- <- <-]. by left. }
  change (u32 syscall.SizeofInotifyEvent) with syscall.SizeofInotifyEvent.
  destruct (Z.ltb_spec (bufferItem w1) syscall.SizeofInotifyEvent).
  { intros [= <- <- <-]. right; left. by repeat split. }
  destruct (forwardBuffer w1) as [[[p|] w2]|] eqn:Hfb; [| |discriminate].
  - destruct (deref w2 p) as [ws|] eqn:Hd; [|discriminate].
    intros [= <- <- <-]. right; right; right. exists w1, p. by repeat split.
  - intros [= <- <- <-]. right; right; left. exists w1. by repeat split.
Qed.

Lemma GetEventName_present ws w e :
  watchMap w !! watchId ws = Some e ->
  exists l w' t, GetEventName ws w = Ok (l, w', t).
Proof.
  intros He. unfold GetEventName, store_remove. rewrite He.
  repeat (case_bits; [destruct (watch ws); by eexists _, _, _|]).
  case_bits; [|by eexists _, _, _].
  destruct (watch ws); [|by eexists _, _, _].
  destruct (remove e); by eexists _, _, _.
Qed.

Lemma reachable_wait_phase env wake w w1 :
  (forall w0, reachable env w0 -> reachable env (wake w0)) ->
  reachable env w -> wait_phase wake w = Some w1 -> reachable env w1.
Proof.
  intros Hwake Hr. unfold wait_phase.
  destruct (bufferItem w =? 0); [|by intros [= <-]].
  destruct (closes w); [discriminate|]. intros [= <-].
  eapply reach_step; [|apply step_wait].
  apply Hwake. eapply reach_step; [exact Hr | apply step_wait].
Qed.

Lemma Run_created_reachable : reachable Run.env0 Run.created.
Proof.
  eapply reach_step.
  - eapply reach_step.
    + eapply (reach_new Run.env0 Run.fresh []). reflexivity.
    + eapply (step_AddWatch Eager). exact Run_watching.
  - eapply (step_epollWait
              (EpollReady [(mkEpollEvent EPOLLIN 3, ReadData (encode Run.rec_create))])).
    vm_compute. reflexivity.
Qed.

(** What a returning [WaitEvent] hands out, on any watcher reachable from
    [NewWatcher] (the other goroutines too taking only reachable steps):
    without an error, a copy of the registry entry under the event's own
    [watchId], with a non-nil back-reference; with an error, one of the
    three errors of the function and the zero [WatchSingle]; and in both
    cases [GetEventName] on the returned value, in the watcher as
    [WaitEvent] left it, returns a label and does not panic. *)
Theorem WaitEvent_result env wake w ev err w' :
  reachable env w ->
  (forall w0, reachable env w0 -> reachable env (wake w0)) ->
  WaitEvent wake w = Ok (ev, err, w') ->
  reachable env w'
  /\ (err = None ->
      watchMap w' !! watchId ev = Some ev /\ watch ev = true)
  /\ (is_Some err ->
      ev = WatchSingle_zero
      /\ (err = Some ErrClosed \/ err = Some ErrCrossLines
          \/ err = Some ErrDeletedOrRenamed))
  /\ exists w'' t, GetEventName ev w' = Ok (spec_label (Mask ev), w'', t).
Proof.
  intros Hr Hwake Hrun.
  assert (Hzero : forall w0, exists w'' t,
            GetEventName WatchSingle_zero w0
            = Ok (spec_label (Mask WatchSingle_zero), w'', t)).
  { intros w0. eexists _, _. reflexivity. }
  destruct (WaitEvent_inv _ _ _ _ _ Hrun)
    as [(_ & -> & -> & ->)|[(Hph & _ & -> & ->)
       |[(w1 & Hph & _ & Hfb & -> & ->)|(w1 & p & Hph & _ & Hfb & Hd & ->)]]].
  - split; [done|]. split; [discriminate|]. split; [auto|]. apply Hzero.
  - split; [by eapply reachable_wait_phase|].
    split; [discriminate|]. split; [auto|]. apply Hzero.
  - split.
    { eapply reach_step; [by eapply reachable_wait_phase|].
      by eapply step_forwardBuffer. }
    split; [discriminate|]. split; [auto|]. apply Hzero.
  - assert (Hr' : reachable env w').
    { eapply reach_step; [by eapply reachable_wait_phase|].
      by eapply step_forwardBuffer. }
    destruct (reachable_invariant_aux env w' Hr') as (_ & _ & Hok & _).
    unfold deref in Hd. destruct (Hok p ev Hd) as [Hid Hw].
    split; [done|]. split; [by rewrite Hid|]. split; [by intros [? [=]]|].
    destruct (GetEventName_present ev w' ev) as (l & w'' & t & Hg);
      [by rewrite Hid|].
    exists w'', t. rewrite Hg. do 3 f_equal. by eapply GetEventName_label.
Qed.

Lemma WaitEvent_result_witness :
  exists ev w',
    WaitEvent (fun w => w) Run.created = Ok (ev, None, w')
    /\ reachable Run.env0 w'
    /\ exists w'' t, GetEventName ev w' = Ok (spec_label (Mask ev), w'', t).
Proof.
  eexists _, _. split; [vm_compute; reflexivity|].
  destruct (WaitEvent_result Run.env0 (fun w => w) Run.created _ _ _
              Run_created_reachable (fun w0 H => H) eq_refl)
    as (H1 & _ & _ & H2).
  split; [exact H1 | exact H2].
Defined.

(** With fewer than a header's bytes buffered [WaitEvent] hands out no
    event and consumes nothing: with an empty buffer on a closed watcher it
    returns the closed error, and with 1 to 15 bytes it returns the
    cross-lines error, in both cases at once (whatever the other goroutines
    would do) and leaving the watcher as it was, so that repeating the call
    gives the same answer. *)
Theorem WaitEvent_short_buffer wake w :
  0 <= bufferItem w < syscall.SizeofInotifyEvent ->
  (bufferItem w = 0 -> closes w = true) ->
  exists err,
    WaitEvent wake w = Ok (WatchSingle_zero, Some err, w)
    /\ (bufferItem w = 0 -> err = ErrClosed)
    /\ (bufferItem w <> 0 -> err = ErrCrossLines).
Proof.
  intros Hshort Hcl. unfold WaitEvent, wait_phase.
  destruct (Z.eqb_spec (bufferItem w) 0) as [H0|H0].
  - rewrite (Hcl H0). exists ErrClosed. by repeat split.
  - change (u32 syscall.SizeofInotifyEvent) with syscall.SizeofInotifyEvent.
    destruct (Z.ltb_spec (bufferItem w) syscall.SizeofInotifyEvent); [|lia].
    exists ErrCrossLines. by repeat split.
Qed.

Lemma WaitEvent_short_buffer_witness :
  exists err,
    WaitEvent (fun w => w) (set_closes true Run.watching)
    = Ok (WatchSingle_zero, Some err, set_closes true Run.watching)
    /\ (bufferItem (set_closes true Run.watching) = 0 -> err = ErrClosed)
    /\ (bufferItem (set_closes true Run.watching) <> 0 -> err = ErrCrossLines).
Proof.
  apply (WaitEvent_short_buffer (fun w => w) (set_closes true Run.watching)).
  - vm_compute. split; [discriminate | reflexivity].
  - reflexivity.
Defined.

(** A caller asleep in [WaitEvent] on an empty buffer, woken because the
    reactor failed for good, gets the cross-lines error, not the closed
    one: after the wake-up the function tests the byte count only.  The
    watcher is closed then, and it is the next call that returns the closed
    error. *)
Theorem WaitEvent_woken_by_failure failure wake w :
  bufferItem w = 0 -> closes w = false ->
  failure <> Some Errno_.EINTR ->
  let reactor := fun w0 =>
    match epollWait (EpollFailed failure) w0 with
    | Ok (w1, _, _) => w1
    | Panic => w0
    end in
  exists w',
    WaitEvent reactor w = Ok (WatchSingle_zero, Some ErrCrossLines, w')
    /\ closes w' = true /\ wait w' = false /\ bufferItem w' = 0
    /\ WaitEvent wake w' = Ok (WatchSingle_zero, Some ErrClosed, w').
Proof.
  intros H0 Hcl Hne reactor.
  exists (set_wait false (set_closes true (set_wait true w))).
  assert (Hre : reactor (set_wait true w) = set_closes true (set_wait true w)).
  { unfold reactor, epollWait. by destruct (decide (failure = Some Errno_.EINTR)). }
  split.
  - unfold WaitEvent, wait_phase. rewrite H0, Hcl. cbn [Z.eqb].
    rewrite Hre. cbn [bufferItem set_wait set_closes]. rewrite H0. reflexivity.
  - split; [done|]. split; [done|]. split; [done|].
    unfold WaitEvent, wait_phase. cbn [bufferItem set_wait set_closes closes].
    rewrite H0. reflexivity.
Qed.

Lemma WaitEvent_woken_by_failure_witness :
  let reactor := fun w0 =>
    match epollWait (EpollFailed None) w0 with
    | Ok (w1, _, _) => w1
    | Panic => w0
    end in
  exists w',
    WaitEvent reactor Run.watching = Ok (WatchSingle_zero, Some ErrCrossLines, w')
    /\ closes w' = true /\ wait w' = false /\ bufferItem w' = 0
    /\ WaitEvent (fun w => w) w' = Ok (WatchSingle_zero, Some ErrClosed, w').
Proof.
  apply (WaitEvent_woken_by_failure None (fun w => w) Run.watching);
    [reflexivity | reflexivity | discriminate].
Defined.

(** * Events through [WaitEvent] *)

Lemma WaitEvent_front wake w r rest e :
  wf_record r -> eventBuffer w = encode r ++ rest ->
  buffer_ok w -> watchMap w !! k_wd r = Some e ->
  Z.of_nat (length (encode r)) <= bufferItem w ->
  WaitEvent wake w = Ok (front_event w e, None, consumed w e).
Proof.
  intros Hwf Hbuf Hb He Hn. unfold WaitEvent, wait_phase.
  pose proof (length_encode r) as Hlen.
  change syscall.SizeofInotifyEvent with 16 in Hlen.
  destruct (Z.eqb_spec (bufferItem w) 0); [lia|].
  change (u32 syscall.SizeofInotifyEvent) with 16.
  destruct (Z.ltb_spec (bufferItem w) 16); [lia|].
  rewrite (forwardBuffer_encode w r rest Hwf Hbuf e Hb He).
  rewrite <- (front_key_encode w r rest Hwf Hbuf). by rewrite deref_consumed.
Qed.

Lemma WaitEvent_n_stream_aux wake recs : forall w rest,
  buffer_ok w ->
  Forall wf_record recs ->
  Forall (fun r => is_Some (watchMap w !! k_wd r)) recs ->
  eventBuffer w = stream recs ++ rest ->
  bufferItem w = Z.of_nat (length (stream recs)) ->
  exists res w',
    WaitEvent_n wake (length recs) w = Ok (res, w')
    /\ map (fun x => Some x.1) res = map (event_of (watchMap w)) recs
    /\ Forall (fun x => x.2 = None) res
    /\ bufferItem w' = 0.
Proof.
  induction recs as [|r recs IH]; intros w rest Hb Hwf Hres Hbuf Hn.
  - exists [], w. cbn in *. auto.
  - apply Forall_cons in Hwf as [Hr Hwf].
    apply Forall_cons in Hres as [[e He] Hres].
    cbn [stream] in Hbuf, Hn. rewrite <- app_assoc in Hbuf.
    rewrite length_app in Hn.
    pose proof (front_key_encode w r _ Hr Hbuf) as Hkey.
    destruct (consumed_buffer w r _ Hr Hbuf e) as [rest' Hbuf'].
    rewrite <- app_assoc in Hbuf'.
    destruct (IH (consumed w e) (rest ++ rest'))
      as (res & w' & Hrun & Hev & Herr & H0).
    + by eapply consumed_buffer_ok.
    + done.
    + eapply Forall_impl; [exact Hres|]. intros r' Hr'. by apply resolves_consumed.
    + done.
    + apply (consumed_bufferItem w r _ Hr Hbuf); [|lia].
      unfold buffer_ok in Hb. rewrite Hbuf, !length_app in Hb.
      change BUFFER_CAP with 400 in Hb. lia.
    + exists ((front_event w e, None) :: res), w'.
      cbn [length WaitEvent_n map fst snd].
      rewrite (WaitEvent_front wake w r _ e Hr Hbuf Hb He) by lia.
      rewrite Hrun. split; [done|]. split; [|split; [by constructor|done]].
      rewrite (event_of_front w r _ Hr Hbuf e He). f_equal.
      rewrite Hev. apply map_ext. intros r'. apply event_of_consumed.
      by rewrite Hkey.
Qed.

(** With the bytes of N well-formed, resolvable records buffered, N calls
    of [WaitEvent] return without waiting for anybody, each with a nil
    error and, in the order of the records, the event of its record: its
    mask, and the stored path of its entry followed by its name field; the
    buffer is empty afterwards. *)
Theorem WaitEvent_n_stream wake recs w rest :
  buffer_ok w ->
  Forall wf_record recs ->
  Forall (fun r => is_Some (watchMap w !! k_wd r)) recs ->
  eventBuffer w = stream recs ++ rest ->
  bufferItem w = Z.of_nat (length (stream recs)) ->
  exists evs w',
    WaitEvent_n wake (length recs) w = Ok (map (fun ev => (ev, None)) evs, w')
    /\ Forall2 (fun r ev =>
         exists e, watchMap w !! k_wd r = Some e
           /\ Mask ev = k_mask r
           /\ FileName ev = (path e ++ string_of_list_byte (k_name r))%string)
         recs evs
    /\ bufferItem w' = 0.
Proof.
  intros Hb Hwf Hres Hbuf Hn.
  destruct (WaitEvent_n_stream_aux wake recs w rest Hb Hwf Hres Hbuf Hn)
    as (res & w' & Hrun & Hev & Herr & H0).
  destruct (events_resolved (watchMap w) recs Hres) as (evs & Hmap & Hall).
  exists evs, w'. rewrite Hrun. split; [|done].
  do 2 f_equal. rewrite Hmap in Hev. clear -Hev Herr.
  revert evs Hev. induction Herr as [|[ev err] res Hx _ IH]; intros [|ev' evs] Hev;
    try discriminate; [done|].
  cbn in *. injection Hev as -> Hev. subst err. f_equal. by apply IH.
Qed.

Lemma WaitEvent_n_stream_witness :
  exists evs w',
    WaitEvent_n (fun w => w) 2 Run.created_deleted
    = Ok (map (fun ev => (ev, None)) evs, w')
    /\ Forall2 (fun r ev =>
         exists e, watchMap Run.created_deleted !! k_wd r = Some e
           /\ Mask ev = k_mask r
           /\ FileName ev = (path e ++ string_of_list_byte (k_name r))%string)
         [Run.rec_create; Run.rec_delete] evs
    /\ bufferItem w' = 0.
Proof.
  apply (WaitEvent_n_stream (fun w => w) [Run.rec_create; Run.rec_delete]
           Run.created_deleted (repeat x00 (Z.to_nat BUFFER_CAP - 64))).
  - reflexivity.
  - repeat constructor; vm_compute; congruence.
  - repeat constructor; exists Run.dir_entry; reflexivity.
  - reflexivity.
  - reflexivity.
Defined.

(** * Events of one entry *)

(** The pointer [forwardBuffer] returns is the registry entry itself: when
    two buffered records name the same watch identifier, the second call
    returns the same pointer and overwrites [Mask] and [FileName], so the
    result of the first call read after the second shows the second
    record. *)
Theorem forwardBuffer_same_entry w r1 r2 rest e :
  wf_record r1 -> wf_record r2 -> k_wd r1 = k_wd r2 ->
  eventBuffer w = encode r1 ++ encode r2 ++ rest ->
  buffer_ok w ->
  watchMap w !! k_wd r1 = Some e ->
  exists w1 w2 ev1 ev2,
    forwardBuffer w = Ok (Some (k_wd r1), w1)
    /\ deref w1 (k_wd r1) = Some ev1
    /\ Mask ev1 = k_mask r1
    /\ FileName ev1 = (path e ++ string_of_list_byte (k_name r1))%string
    /\ forwardBuffer w1 = Ok (Some (k_wd r1), w2)
    /\ deref w2 (k_wd r1) = Some ev2
    /\ Mask ev2 = k_mask r2
    /\ FileName ev2 = (path e ++ string_of_list_byte (k_name r2))%string.
Proof.
  intros Hwf1 Hwf2 Hwd Hbuf Hb He.
  pose proof (front_key_encode w r1 _ Hwf1 Hbuf) as Hkey.
  destruct (consumed_buffer w r1 _ Hwf1 Hbuf e) as [rest' Hbuf1].
  rewrite <- app_assoc in Hbuf1.
  set (w1 := consumed w e) in *.
  assert (Hb1 : buffer_ok w1) by exact (consumed_buffer_ok w r1 _ Hwf1 Hbuf e Hb).
  assert (He1 : watchMap w1 !! k_wd r2 = Some (front_event w e)).
  { rewrite <- Hwd, <- Hkey. apply deref_consumed. }
  exists w1, (consumed w1 (front_event w e)), (front_event w e),
         (front_event w1 (front_event w e)).
  split; [exact (forwardBuffer_encode w r1 _ Hwf1 Hbuf e Hb He)|].
  split; [rewrite <- Hkey; apply deref_consumed|].
  split; [exact (front_Mask_encode w r1 _ Hwf1 Hbuf)|].
  split.
  { unfold front_event. cbn. by rewrite (front_name_encode w r1 _ Hwf1 Hbuf). }
  split.
  { rewrite Hwd. exact (forwardBuffer_encode w1 r2 _ Hwf2 Hbuf1 _ Hb1 He1). }
  split.
  { rewrite Hwd, <- (front_key_encode w1 r2 _ Hwf2 Hbuf1). apply deref_consumed. }
  split; [exact (front_Mask_encode w1 r2 _ Hwf2 Hbuf1)|].
  unfold front_event. cbn. by rewrite (front_name_encode w1 r2 _ Hwf2 Hbuf1).
Qed.

Lemma forwardBuffer_same_entry_witness :
  exists w1 w2 ev1 ev2,
    forwardBuffer Run.created_deleted = Ok (Some 1, w1)
    /\ deref w1 1 = Some ev1
    /\ Mask ev1 = IN_CREATE
    /\ FileName ev1
       = (path Run.dir_entry ++ string_of_list_byte (k_name Run.rec_create))%string
    /\ forwardBuffer w1 = Ok (Some 1, w2)
    /\ deref w2 1 = Some ev2
    /\ Mask ev2 = IN_DELETE
    /\ FileName ev2
       = (path Run.dir_entry ++ string_of_list_byte (k_name Run.rec_delete))%string.
Proof.
  apply (forwardBuffer_same_entry Run.created_deleted Run.rec_create
           Run.rec_delete (repeat x00 (Z.to_nat BUFFER_CAP - 64)) Run.dir_entry).
  - repeat constructor; vm_compute; congruence.
  - repeat constructor; vm_compute; congruence.
  - reflexivity.
  - reflexivity.
  - reflexivity.
  - reflexivity.
Defined.

(** After a successful [AddWatch] for a new watch descriptor, a record of
    that descriptor is reported under the path handed to the kernel, with a
    separator appended if and only if the path was a directory when it was
    added, followed by the record's name field; the entry carries the
    requested flags. *)
Theorem AddWatch_then_event v p absP dir wd env fl w :
  succeeds v p absP dir wd (env, fl) ->
  watchMap w !! u32 wd = None ->
  exists w1 t,
    AddWatch_of v env p fl w = Ok (None, w1, t)
    /\ forall w2 r rest,
         watchMap w2 = watchMap w1 -> buffer_ok w2 ->
         wf_record r -> k_wd r = u32 wd ->
         eventBuffer w2 = encode r ++ rest ->
         exists w3 ev,
           forwardBuffer w2 = Ok (Some (u32 wd), w3)
           /\ deref w3 (u32 wd) = Some ev
           /\ Mask ev = k_mask r
           /\ FileName ev
              = ((if dir then absP ++ "/" else absP)
                 ++ string_of_list_byte (k_name r))%string
           /\ flags ev = fl /\ isDir ev = dir /\ remove ev = false.
Proof.
  intros Hs Hnone.
  set (e0 := mkWatchSingle (stored_path absP dir) dir (u32 wd) fl true false "" 0).
  exists (set_watchMap (<[u32 wd := e0]> (watchMap w)) w),
         [SysInotifyAddWatch (inotifyFD w) absP (kernel_mask fl)].
  split.
  { rewrite (AddWatch_of_succeeds _ _ _ _ _ _ _ _ Hs).
    by rewrite register_absent. }
  intros w2 r rest Hmap Hb Hwf Hwd Hbuf.
  assert (He : watchMap w2 !! k_wd r = Some e0).
  { rewrite Hmap, Hwd. cbn. apply lookup_insert_eq. }
  pose proof (front_key_encode w2 r _ Hwf Hbuf) as Hkey.
  exists (consumed w2 e0), (front_event w2 e0).
  split; [rewrite <- Hwd; by eapply forwardBuffer_encode|].
  split; [rewrite <- Hwd, <- Hkey; apply deref_consumed|].
  split; [by eapply front_Mask_encode|].
  split; [|done].
  unfold front_event. cbn. by erewrite front_name_encode.
Qed.

Lemma AddWatch_then_event_witness :
  exists w1 t,
    AddWatch_of Eager Run.add_env "/tmp/d" Run.add_flags Run.fresh = Ok (None, w1, t)
    /\ forall w2 r rest,
         watchMap w2 = watchMap w1 -> buffer_ok w2 ->
         wf_record r -> k_wd r = u32 1 ->
         eventBuffer w2 = encode r ++ rest ->
         exists w3 ev,
           forwardBuffer w2 = Ok (Some (u32 1), w3)
           /\ deref w3 (u32 1) = Some ev
           /\ Mask ev = k_mask r
           /\ FileName ev
              = (("/tmp/d" ++ "/") ++ string_of_list_byte (k_name r))%string
           /\ flags ev = Run.add_flags /\ isDir ev = true /\ remove ev = false.
Proof.
  apply (AddWatch_then_event Eager "/tmp/d" "/tmp/d" true 1 Run.add_env
           Run.add_flags Run.fresh).
  - repeat split.
  - reflexivity.
Defined.

(** * [Close] after the reactor *)

(** When [EpollWait] fails for good the reactor closes the inotify
    descriptor itself; a [Close] called afterwards closes that descriptor
    again, and the epoll descriptor for the first time. *)
Theorem Close_after_reactor_failure failure w :
  failure <> Some Errno_.EINTR ->
  inotifyFD w <> -1 -> epollFD w <> -1 ->
  exists w1,
    epollWait (EpollFailed failure) w = Ok (w1, [SysClose (inotifyFD w)], false)
    /\ closes w1 = true
    /\ Close w1 = (w1, [SysClose (inotifyFD w); SysClose (epollFD w)]).
Proof.
  intros Hne Hi He. exists (set_closes true w).
  split; [unfold epollWait; by destruct (decide (failure = Some Errno_.EINTR))|].
  split; [done|].
  unfold Close. cbn [inotifyFD epollFD set_closes].
  destruct (Z.eqb_spec (inotifyFD w) (-1)); [done|].
  destruct (Z.eqb_spec (epollFD w) (-1)); [done|]. reflexivity.
Qed.

Lemma Close_after_reactor_failure_witness :
  exists w1,
    epollWait (EpollFailed None) Run.created
    = Ok (w1, [SysClose (inotifyFD Run.created)], false)
    /\ closes w1 = true
    /\ Close w1 = (w1, [SysClose (inotifyFD Run.created);
                        SysClose (epollFD Run.created)]).
Proof.
  apply (Close_after_reactor_failure None Run.created); discriminate.
Defined.
